(** * Circular doubly-linked lists of [include/common/mini-clist.h]

    A shallow embedding of the list macros ([LIST_INIT], [LIST_ADD],
    [LIST_ADDQ], [LIST_DEL], [LIST_DEL_INIT], [LIST_ISEMPTY], [LIST_ADDED],
    [list_for_each_entry]) and of the locked family ([LIST_ADD_LOCKED],
    [LIST_ADDQ_LOCKED], [LIST_DEL_LOCKED], [LIST_POP_LOCKED]) over an
    explicit memory of pointer slots, and the properties of these macros. *)

From stdpp Require Import base decidable countable gmap list.
From Stdlib Require Import ZArith Lia.

Set Warnings "-clear-no-such-hyp".

Local Open Scope Z_scope.

(** ** Data model *)

(** A pointer is an address.  [NULL] is the address 0. *)
Abbreviation ptr := Z (only parsing).

Definition NULL : ptr := 0.

(** [struct list { struct list *n; struct list *p; }] as a value. *)
Record struct_list : Type := { n : ptr; p : ptr }.

(** The two members of a [struct list]; [(x, fld_n)] is the slot [&x->n] and
    [(x, fld_p)] is the slot [&x->p]. *)
Inductive field : Type := fld_n | fld_p.

#[global] Instance field_eq_dec : EqDecision field.
Proof. solve_decision. Defined.

#[global] Instance field_countable : Countable field.
Proof.
  refine (inj_countable'
            (fun f => match f with fld_n => false | fld_p => true end)
            (fun b => if b : bool then fld_p else fld_n) _).
  intros []; reflexivity.
Defined.

Abbreviation slot := (ptr * field)%type (only parsing).

(** What an operation does to memory, in program order: the ghost log that
    tells which slots an operation claimed and in which order it wrote. *)
Inductive event : Type :=
| EvStore (sl : slot) (v : ptr)
| EvXchg (sl : slot) (old new : ptr)
| EvBarrier.

(** The memory maps every allocated pointer slot to the pointer it holds. *)
Record state : Type := { heap : gmap slot ptr; trace : list event }.

(** A run either returns a value and a state, or dereferences a slot that is
    not allocated ([Fault]), or is still spinning in a [while (1)] loop when
    the fuel is exhausted ([Spin]). *)
Inductive res (A : Type) : Type :=
| Ok (a : A) (s : state)
| Fault
| Spin (s : state).

Arguments Ok {A} a s.
Arguments Fault {A}.
Arguments Spin {A} s.

Definition M (A : Type) : Type := state -> res A.

Definition ret {A} (a : A) : M A := fun s => Ok a s.

Definition bind {A B} (c : M A) (k : A -> M B) : M B :=
  fun s => match c s with
           | Ok a s' => k a s'
           | Fault => Fault
           | Spin s' => Spin s'
           end.

Notation "x <- c ;; k" := (bind c (fun x => k))
  (at level 20, c at level 99, k at level 200, only parsing).
Notation "c ;;; k" := (bind c (fun _ => k))
  (at level 20, k at level 200, only parsing).

(** ** Memory primitives *)

(** Reading a slot: [x->n] is [load (x, fld_n)]. *)
Definition load (sl : slot) : M ptr :=
  fun s => match heap s !! sl with
           | Some v => Ok v s
           | None => Fault
           end.

(** Writing a slot: [x->n = v] is [store (x, fld_n) v]. *)
Definition store (sl : slot) (v : ptr) : M unit :=
  fun s => match heap s !! sl with
           | Some _ => Ok tt {| heap := <[sl := v]> (heap s);
                                trace := trace s ++ [EvStore sl v] |}
           | None => Fault
           end.

(** Modelled from the spec: the macro [_HA_ATOMIC_XCHG] of
    [common/hathreads.h], which is not part of the sources at hand.  The
    atomic exchange replaces the contents of a pointer slot and returns its
    previous contents in one indivisible step: [_HA_ATOMIC_XCHG(&x->f, v)]
    is [_HA_ATOMIC_XCHG (x, f) v]. *)
Definition _HA_ATOMIC_XCHG (sl : slot) (v : ptr) : M ptr :=
  fun s => match heap s !! sl with
           | Some old => Ok old {| heap := <[sl := v]> (heap s);
                                   trace := trace s ++ [EvXchg sl old v] |}
           | None => Fault
           end.

(** Modelled from the spec: the function [__ha_barrier_store] of
    [common/hathreads.h], which is not part of the sources at hand.  The store
    barrier orders the writes before it and after it; in a run of one thread
    it changes nothing in memory and is only recorded in the log. *)
Definition __ha_barrier_store : M unit :=
  fun s => Ok tt {| heap := heap s; trace := trace s ++ [EvBarrier] |}.

(** [while (1) { body }]: the body answers [None] for [continue] and
    [Some a] for [break] with the value [a]. *)
Fixpoint while1 {A} (fuel : nat) (body : M (option A)) : M A :=
  fun s => match fuel with
           | O => Spin s
           | S fuel' =>
               match body s with
               | Ok (Some a) s' => Ok a s'
               | Ok None s' => while1 fuel' body s'
               | Fault => Fault
               | Spin s' => Spin s'
               end
           end.

Definition continue {A} : M (option A) := ret None.
Definition break {A} (a : A) : M (option A) := ret (Some a).

(** ** The unlocked macros *)

(** [#define ILH { .n = (struct list * )1, .p = (struct list * )2 }] *)
Definition ILH : struct_list := {| n := 1; p := 2 |}.

(** [#define LIST_HEAD_INIT(l) { &l, &l }] *)
Definition LIST_HEAD_INIT (l : ptr) : struct_list := {| n := l; p := l |}.

(** [#define LIST_INIT(l) ((l)->n = (l)->p = (l))] *)
Definition LIST_INIT (l : ptr) : M ptr :=
  store (l, fld_p) l ;;;
  store (l, fld_n) l ;;;
  ret l.

(** [#define LIST_ADD(lh, el)
      ({ (el)->n = (lh)->n; (el)->n->p = (lh)->n = (el); (el)->p = (lh); (el); })]

    In the second statement the slot [(el)->n->p] is located, then the inner
    assignment [(lh)->n = (el)] is done, then the outer one.  The other order
    gives the same memory unless [el = lh]. *)
Definition LIST_ADD (lh el : ptr) : M ptr :=
  v <- load (lh, fld_n) ;;
  store (el, fld_n) v ;;;
  t <- load (el, fld_n) ;;
  store (lh, fld_n) el ;;;
  store (t, fld_p) el ;;;
  store (el, fld_p) lh ;;;
  ret el.

(** [#define LIST_ADDQ(lh, el)
      ({ (el)->p = (lh)->p; (el)->p->n = (lh)->p = (el); (el)->n = (lh); (el); })] *)
Definition LIST_ADDQ (lh el : ptr) : M ptr :=
  v <- load (lh, fld_p) ;;
  store (el, fld_p) v ;;;
  t <- load (el, fld_p) ;;
  store (lh, fld_p) el ;;;
  store (t, fld_n) el ;;;
  store (el, fld_n) lh ;;;
  ret el.

(** [#define LIST_DEL(el)
      ({ typeof(el) __ret = (el); (el)->n->p = (el)->p; (el)->p->n = (el)->n; (__ret); })] *)
Definition LIST_DEL (el : ptr) : M ptr :=
  let __ret := el in
  t <- load (el, fld_n) ;;
  v <- load (el, fld_p) ;;
  store (t, fld_p) v ;;;
  t' <- load (el, fld_p) ;;
  v' <- load (el, fld_n) ;;
  store (t', fld_n) v' ;;;
  ret __ret.

(** [#define LIST_DEL_INIT(el) ({
        typeof(el) __ret = (el);
        typeof(__ret->n) __n = __ret->n;
        typeof(__ret->p) __p = __ret->p;
        __n->p = __p; __p->n = __n;
        __ret->n = __ret->p = __ret;
        __ret;
     })] *)
Definition LIST_DEL_INIT (el : ptr) : M ptr :=
  let __ret := el in
  __n <- load (__ret, fld_n) ;;
  __p <- load (__ret, fld_p) ;;
  store (__n, fld_p) __p ;;;
  store (__p, fld_n) __n ;;;
  store (__ret, fld_p) __ret ;;;
  store (__ret, fld_n) __ret ;;;
  ret __ret.

(** [#define LIST_ELEM(lh, pt, el) ((pt)(((void * )(lh)) - ((void * )&((pt)NULL)->el)))]
    where [off] is the offset [&((pt)NULL)->el] of the member in its host. *)
Definition LIST_ELEM (lh : ptr) (off : Z) : ptr := lh - off.

(** [&item->member], the inverse of [LIST_ELEM]. *)
Definition member_of (item : ptr) (off : Z) : ptr := item + off.

(** [#define LIST_ISEMPTY(lh) ((lh)->n == (lh))] *)
Definition LIST_ISEMPTY (lh : ptr) : M bool :=
  v <- load (lh, fld_n) ;;
  ret (bool_decide (v = lh)).

(** [#define LIST_ADDED(el) ((el)->n != (el))] *)
Definition LIST_ADDED (el : ptr) : M bool :=
  v <- load (el, fld_n) ;;
  ret (bool_decide (v <> el)).

(** [#define LIST_NEXT(lh, pt, el) (LIST_ELEM((lh)->n, pt, el))] *)
Definition LIST_NEXT (lh : ptr) (off : Z) : M ptr :=
  v <- load (lh, fld_n) ;;
  ret (LIST_ELEM v off).

(** [#define LIST_PREV(lh, pt, el) (LIST_ELEM((lh)->p, pt, el))] *)
Definition LIST_PREV (lh : ptr) (off : Z) : M ptr :=
  v <- load (lh, fld_p) ;;
  ret (LIST_ELEM v off).

(** [#define list_for_each_entry_from(item, list_head, member)
       for ( ; &item->member != (list_head);
            item = LIST_ELEM(item->member.n, typeof(item), member))]

    The loop body is a parameter; it threads an accumulator of type [A].
    One unit of fuel is spent per test of the loop condition. *)
Fixpoint list_for_each_entry_from {A} (fuel : nat) (off : Z) (list_head : ptr)
    (body : ptr -> A -> M A) (item : ptr) (acc : A) : M A :=
  match fuel with
  | O => fun s => Spin s
  | S fuel' =>
      if decide (member_of item off = list_head) then ret acc
      else
        acc' <- body item acc ;;
        v <- load (member_of item off, fld_n) ;;
        list_for_each_entry_from fuel' off list_head body (LIST_ELEM v off) acc'
  end.

(** [#define list_for_each_entry(item, list_head, member)
       for (item = LIST_ELEM((list_head)->n, typeof(item), member);
            &item->member != (list_head);
            item = LIST_ELEM(item->member.n, typeof(item), member))] *)
Definition list_for_each_entry {A} (fuel : nat) (off : Z) (list_head : ptr)
    (body : ptr -> A -> M A) (acc : A) : M A :=
  v <- load (list_head, fld_n) ;;
  list_for_each_entry_from fuel off list_head body (LIST_ELEM v off) acc.

(** The loop body that records the items in the order they are visited. *)
Definition visit (item : ptr) (acc : list ptr) : M (list ptr) :=
  ret (acc ++ [item]).

(** The loop of [list_for_each_entry_safe] once [item] and [back] are set:
    [for (...; &item->member != (list_head);
          item = back, back = LIST_ELEM(back->member.n, typeof(back), member))].
    One unit of fuel is spent per test of the loop condition. *)
Fixpoint list_for_each_entry_safe_loop {A} (fuel : nat) (off : Z)
    (list_head : ptr) (body : ptr -> A -> M A) (item back : ptr) (acc : A)
    : M A :=
  match fuel with
  | O => fun s => Spin s
  | S fuel' =>
      if decide (member_of item off = list_head) then ret acc
      else
        acc' <- body item acc ;;
        v <- load (member_of back off, fld_n) ;;
        list_for_each_entry_safe_loop fuel' off list_head body
          back (LIST_ELEM v off) acc'
  end.

(** [#define list_for_each_entry_safe_from(item, back, list_head, member)
       for (back = LIST_ELEM(item->member.n, typeof(item), member);
            &item->member != (list_head);
            item = back, back = LIST_ELEM(back->member.n, typeof(back), member))] *)
Definition list_for_each_entry_safe_from {A} (fuel : nat) (off : Z)
    (list_head : ptr) (body : ptr -> A -> M A) (item : ptr) (acc : A) : M A :=
  v <- load (member_of item off, fld_n) ;;
  list_for_each_entry_safe_loop fuel off list_head body item (LIST_ELEM v off) acc.

(** [#define list_for_each_entry_safe(item, back, list_head, member)
       for (item = LIST_ELEM((list_head)->n, typeof(item), member),
            back = LIST_ELEM(item->member.n, typeof(item), member);
            &item->member != (list_head);
            item = back, back = LIST_ELEM(back->member.n, typeof(back), member))] *)
Definition list_for_each_entry_safe {A} (fuel : nat) (off : Z)
    (list_head : ptr) (body : ptr -> A -> M A) (acc : A) : M A :=
  v <- load (list_head, fld_n) ;;
  list_for_each_entry_safe_from fuel off list_head body (LIST_ELEM v off) acc.

(** A loop body that records the item and takes it out of the list with
    [LIST_DEL_INIT(&item->member)] when [f item] holds. *)
Definition visit_remove_if (f : ptr -> bool) (off : Z) (item : ptr)
    (acc : list ptr) : M (list ptr) :=
  (if f item then LIST_DEL_INIT (member_of item off) ;;; ret tt else ret tt) ;;;
  visit item acc.

(** ** The locked macros *)

(** [#define LLIST_BUSY ((struct list * )1)] *)
Definition LLIST_BUSY : ptr := 1.

(** [LIST_ADD_LOCKED(lh, el)]: the [while (1)] loop runs on [fuel]. *)
Definition LIST_ADD_LOCKED (fuel : nat) (lh el : ptr) : M unit :=
  while1 fuel (
    n <- _HA_ATOMIC_XCHG (lh, fld_n) LLIST_BUSY ;;
    if decide (n = LLIST_BUSY) then continue else
    p <- _HA_ATOMIC_XCHG (n, fld_p) LLIST_BUSY ;;
    if decide (p = LLIST_BUSY) then
      store (lh, fld_n) n ;;;
      __ha_barrier_store ;;;
      continue
    else
    store (el, fld_n) n ;;;
    store (el, fld_p) p ;;;
    __ha_barrier_store ;;;
    store (n, fld_p) el ;;;
    __ha_barrier_store ;;;
    store (p, fld_n) el ;;;
    __ha_barrier_store ;;;
    break tt).

(** [LIST_ADDQ_LOCKED(lh, el)] *)
Definition LIST_ADDQ_LOCKED (fuel : nat) (lh el : ptr) : M unit :=
  while1 fuel (
    p <- _HA_ATOMIC_XCHG (lh, fld_p) LLIST_BUSY ;;
    if decide (p = LLIST_BUSY) then continue else
    n <- _HA_ATOMIC_XCHG (p, fld_n) LLIST_BUSY ;;
    if decide (n = LLIST_BUSY) then
      store (lh, fld_p) p ;;;
      __ha_barrier_store ;;;
      continue
    else
    store (el, fld_n) n ;;;
    store (el, fld_p) p ;;;
    __ha_barrier_store ;;;
    store (p, fld_n) el ;;;
    __ha_barrier_store ;;;
    store (n, fld_p) el ;;;
    __ha_barrier_store ;;;
    break tt).

(** The block [if (p != (el)) { p2 = XCHG(&p->n, BUSY); if (p2 == BUSY) {...; continue;} }]
    of [LIST_DEL_LOCKED]: [None] when it ends in [continue], otherwise the
    value of [p2], which is [NULL] when the block is skipped. *)
Definition del_locked_claim_prev (el n p : ptr) : M (option ptr) :=
  if decide (p <> el) then
    p2 <- _HA_ATOMIC_XCHG (p, fld_n) LLIST_BUSY ;;
    if decide (p2 = LLIST_BUSY) then
      store (el, fld_p) p ;;;
      store (el, fld_n) n ;;;
      __ha_barrier_store ;;;
      ret None
    else ret (Some p2)
  else ret (Some NULL).

(** The block [if (n != (el)) { n2 = XCHG(&n->p, BUSY); if (n2 == BUSY) {...; continue;} }]
    of [LIST_DEL_LOCKED]: [false] when it ends in [continue]. *)
Definition del_locked_claim_next (el n p p2 : ptr) : M bool :=
  if decide (n <> el) then
    n2 <- _HA_ATOMIC_XCHG (n, fld_p) LLIST_BUSY ;;
    if decide (n2 = LLIST_BUSY) then
      (if decide (p2 <> NULL) then store (p, fld_n) p2 else ret tt) ;;;
      store (el, fld_p) p ;;;
      store (el, fld_n) n ;;;
      __ha_barrier_store ;;;
      ret false
    else ret true
  else ret true.

(** [LIST_DEL_LOCKED(el)] *)
Definition LIST_DEL_LOCKED (fuel : nat) (el : ptr) : M unit :=
  while1 fuel (
    n <- _HA_ATOMIC_XCHG (el, fld_n) LLIST_BUSY ;;
    if decide (n = LLIST_BUSY) then continue else
    p <- _HA_ATOMIC_XCHG (el, fld_p) LLIST_BUSY ;;
    if decide (p = LLIST_BUSY) then
      store (el, fld_n) n ;;;
      __ha_barrier_store ;;;
      continue
    else
    c <- del_locked_claim_prev el n p ;;
    match c with
    | None => continue
    | Some p2 =>
        c' <- del_locked_claim_next el n p p2 ;;
        if c' : bool then
          store (n, fld_p) p ;;;
          store (p, fld_n) n ;;;
          __ha_barrier_store ;;;
          store (el, fld_p) el ;;;
          store (el, fld_n) el ;;;
          __ha_barrier_store ;;;
          break tt
        else continue
    end).

(** [LIST_POP_LOCKED(lh, pt, el)]; [off] is the offset of member [el] in
    the host type [pt]. *)
Definition LIST_POP_LOCKED (fuel : nat) (lh : ptr) (off : Z) : M ptr :=
  while1 fuel (
    n <- _HA_ATOMIC_XCHG (lh, fld_n) LLIST_BUSY ;;
    if decide (n = LLIST_BUSY) then continue else
    if decide (n = lh) then
      store (lh, fld_n) lh ;;;
      __ha_barrier_store ;;;
      break NULL
    else
    p <- _HA_ATOMIC_XCHG (n, fld_p) LLIST_BUSY ;;
    if decide (p = LLIST_BUSY) then
      store (lh, fld_n) n ;;;
      __ha_barrier_store ;;;
      continue
    else
    n2 <- _HA_ATOMIC_XCHG (n, fld_n) LLIST_BUSY ;;
    if decide (n2 = LLIST_BUSY) then
      store (n, fld_p) p ;;;
      __ha_barrier_store ;;;
      store (lh, fld_n) n ;;;
      __ha_barrier_store ;;;
      continue
    else
    p2 <- _HA_ATOMIC_XCHG (n2, fld_p) LLIST_BUSY ;;
    if decide (p2 = LLIST_BUSY) then
      store (n, fld_n) n2 ;;;
      store (n, fld_p) p ;;;
      __ha_barrier_store ;;;
      store (lh, fld_n) n ;;;
      __ha_barrier_store ;;;
      continue
    else
    store (lh, fld_n) n2 ;;;
    store (n2, fld_p) lh ;;;
    __ha_barrier_store ;;;
    store (n, fld_p) n ;;;
    store (n, fld_n) n ;;;
    __ha_barrier_store ;;;
    break (LIST_ELEM n off)).

(** ** Well-formed lists *)

(** [link h a b]: [a->n == b] and [b->p == a]. *)
Definition link (h : gmap slot ptr) (a b : ptr) : Prop :=
  h !! (a, fld_n) = Some b /\ h !! (b, fld_p) = Some a.

(** [chain h a l z]: following [n] from [a] goes through [l] and arrives at
    [z], and following [p] from [z] goes back through [l] to [a]. *)
Fixpoint chain (h : gmap slot ptr) (a : ptr) (l : list ptr) (z : ptr) : Prop :=
  match l with
  | [] => link h a z
  | b :: r => link h a b /\ chain h b r z
  end.

(** [ring h x l]: in [h], following [n] from [x] goes through the distinct
    nodes [l] and comes back to [x], and [p] goes the other way round.
    With a list head for [x], [l] is the content of the list. *)
Definition ring (h : gmap slot ptr) (x : ptr) (l : list ptr) : Prop :=
  NoDup (x :: l) /\ chain h x l x.

(** [reach h a b]: [b] is reached from [a] by following [n]. *)
Inductive reach (h : gmap slot ptr) (a : ptr) : ptr -> Prop :=
| reach_refl : reach h a a
| reach_next y x : reach h a y -> h !! (y, fld_n) = Some x -> reach h a x.

(** The doubly-linked invariant at one node: [x->n->p == x] and
    [x->p->n == x]. *)
Definition consistent (h : gmap slot ptr) (x : ptr) : Prop :=
  (exists nx, h !! (x, fld_n) = Some nx /\ h !! (nx, fld_p) = Some x) /\
  (exists px, h !! (x, fld_p) = Some px /\ h !! (px, fld_n) = Some x).

(** An initialised, empty list head and a node that is in no list look the
    same: [x->n == x] and [x->p == x]. *)
Definition detached (h : gmap slot ptr) (x : ptr) : Prop :=
  h !! (x, fld_n) = Some x /\ h !! (x, fld_p) = Some x.

(** [holds h x v]: the [struct list] at address [x] has the value [v]. *)
Definition holds (h : gmap slot ptr) (x : ptr) (v : struct_list) : Prop :=
  h !! (x, fld_n) = Some (n v) /\ h !! (x, fld_p) = Some (p v).

(** The slots of [x] exist. *)
Definition allocated (h : gmap slot ptr) (x : ptr) : Prop :=
  is_Some (h !! (x, fld_n)) /\ is_Some (h !! (x, fld_p)).

(** ** Lists built with the unlocked macros *)

Inductive op : Type :=
| OpAdd (el : ptr)
| OpAddq (el : ptr)
| OpDel (el : ptr)
| OpDelInit (el : ptr).

Definition run_op (lh : ptr) (o : op) : M ptr :=
  match o with
  | OpAdd el => LIST_ADD lh el
  | OpAddq el => LIST_ADDQ lh el
  | OpDel el => LIST_DEL el
  | OpDelInit el => LIST_DEL_INIT el
  end.

(** The use the macros are made for: an element is added to a list it is not
    in, and an element is removed from the list it is in. *)
Definition legal (lh : ptr) (h : gmap slot ptr) (o : op) : Prop :=
  match o with
  | OpAdd el | OpAddq el => allocated h el /\ ~ reach h lh el
  | OpDel el | OpDelInit el => reach h lh el /\ el <> lh
  end.

(** The states between calls of a list at [lh] that starts with
    [LIST_INIT(lh)] and is then used through the four macros only. *)
Inductive built (lh : ptr) : state -> Prop :=
| built_init s r s' :
    LIST_INIT lh s = Ok r s' -> built lh s'
| built_op s o r s' :
    built lh s -> legal lh (heap s) o -> run_op lh o s = Ok r s' ->
    built lh s'.

(** ** Concrete memories used by the examples *)

(** The state a run ends in. *)
Definition final {A} (c : M A) (s : state) : state :=
  match c s with
  | Ok _ s' => s'
  | Fault => s
  | Spin s' => s'
  end.

(** A head at 16 whose fields are not initialised yet, and two detached
    nodes at 32 and 48. *)
Definition mem3 : gmap slot ptr :=
  list_to_map [((16, fld_n), 0); ((16, fld_p), 0);
               ((32, fld_n), 32); ((32, fld_p), 32);
               ((48, fld_n), 48); ((48, fld_p), 48)].

Definition st3 : state := {| heap := mem3; trace := [] |}.

(** A head at 16 that has its [ILH] value, and a node at 32. *)
Definition mem_ilh : gmap slot ptr :=
  list_to_map [((16, fld_n), n ILH); ((16, fld_p), p ILH);
               ((32, fld_n), 32); ((32, fld_p), 32)].

Definition st_ilh : state := {| heap := mem_ilh; trace := [] |}.

(** The list at 16 with the node 32 in it, while another thread holds the
    slot [32->p]; 48 is detached. *)
Definition mem_busy : gmap slot ptr :=
  list_to_map [((16, fld_n), 32); ((16, fld_p), 32);
               ((32, fld_n), 16); ((32, fld_p), LLIST_BUSY);
               ((48, fld_n), 48); ((48, fld_p), 48)].

Definition st_busy : state := {| heap := mem_busy; trace := [] |}.

(** A memory that is not a list: [16->n] is [NULL], and [48->p] is held. *)
Definition mem_null : gmap slot ptr :=
  list_to_map [((16, fld_n), NULL); ((16, fld_p), 48);
               ((32, fld_n), 48); ((32, fld_p), 16);
               ((48, fld_n), 16); ((48, fld_p), LLIST_BUSY)].

Definition st_null : state := {| heap := mem_null; trace := [] |}.

(** Two heads at 16 and 80 and three detached nodes at 32, 48 and 64. *)
Definition mem5 : gmap slot ptr :=
  list_to_map [((16, fld_n), 16); ((16, fld_p), 16);
               ((80, fld_n), 80); ((80, fld_p), 80);
               ((32, fld_n), 32); ((32, fld_p), 32);
               ((48, fld_n), 48); ((48, fld_p), 48);
               ((64, fld_n), 64); ((64, fld_p), 64)].

Definition st5 : state := {| heap := mem5; trace := [] |}.

(** The content that is left when the items selected by [f] are removed. *)
Definition kept_nodes (f : ptr -> bool) (off : Z) (l : list ptr) : list ptr :=
  List.filter (fun y => negb (f (LIST_ELEM y off))) l.

(** ** Two threads

    A thread that runs a locked macro can be preempted between any two of
    its statements.  The macros are cut here at the places the schedules
    below need; the lemmas [LIST_ADD_LOCKED_cut] and [LIST_DEL_LOCKED_cut]
    show that the pieces put together again are the macros.  The local
    variables of a thread are the values its piece returns. *)

(** One iteration of [LIST_ADD_LOCKED] up to and including [(el)->n = n;].
    [None] when the iteration ends in [continue], otherwise the values of
    [n] and [p]. *)
Definition add_locked_until_el_n (lh el : ptr) : M (option (ptr * ptr)) :=
  n <- _HA_ATOMIC_XCHG (lh, fld_n) LLIST_BUSY ;;
  if decide (n = LLIST_BUSY) then ret None else
  p <- _HA_ATOMIC_XCHG (n, fld_p) LLIST_BUSY ;;
  if decide (p = LLIST_BUSY) then
    store (lh, fld_n) n ;;;
    __ha_barrier_store ;;;
    ret None
  else
  store (el, fld_n) n ;;;
  ret (Some (n, p)).

(** The rest of that iteration, from [(el)->p = p;] to [break]. *)
Definition add_locked_from_el_p (el n p : ptr) : M (option unit) :=
  store (el, fld_p) p ;;;
  __ha_barrier_store ;;;
  store (n, fld_p) el ;;;
  __ha_barrier_store ;;;
  store (p, fld_n) el ;;;
  __ha_barrier_store ;;;
  break tt.

(** One iteration of [LIST_DEL_LOCKED] up to its exchanges on [(el)->n] and
    [(el)->p]: [None] when it ends in [continue], otherwise the values the two
    exchanges returned, which is what the thread sees of [el]. *)
Definition del_locked_claim_own (el : ptr) : M (option (ptr * ptr)) :=
  n <- _HA_ATOMIC_XCHG (el, fld_n) LLIST_BUSY ;;
  if decide (n = LLIST_BUSY) then ret None else
  p <- _HA_ATOMIC_XCHG (el, fld_p) LLIST_BUSY ;;
  if decide (p = LLIST_BUSY) then
    store (el, fld_n) n ;;;
    __ha_barrier_store ;;;
    ret None
  else ret (Some (n, p)).

(** The two blocks that claim the neighbours' slots. *)
Definition del_locked_claim_neighbours (el n p : ptr) : M (option (ptr * ptr)) :=
  c <- del_locked_claim_prev el n p ;;
  match c with
  | None => ret None
  | Some p2 =>
      c' <- del_locked_claim_next el n p p2 ;;
      if c' : bool then ret (Some (n, p)) else ret None
  end.

(** One iteration of [LIST_DEL_LOCKED] up to the last exchange. *)
Definition del_locked_claims (el : ptr) : M (option (ptr * ptr)) :=
  c <- del_locked_claim_own el ;;
  match c with
  | None => ret None
  | Some (n, p) => del_locked_claim_neighbours el n p
  end.

(** The rest of that iteration, from [n->p = p;] to [break]. *)
Definition del_locked_stores (el n p : ptr) : M (option unit) :=
  store (n, fld_p) p ;;;
  store (p, fld_n) n ;;;
  __ha_barrier_store ;;;
  store (el, fld_p) el ;;;
  store (el, fld_n) el ;;;
  __ha_barrier_store ;;;
  break tt.

(** The list at 16 with the node 32 in it, and 48 detached. *)
Definition st_race : state := final (LIST_INIT 16 ;;; LIST_ADD 16 32) st3.

(** Thread 1 runs [LIST_ADD_LOCKED(16, 48)] and is preempted after
    [(el)->n = n;]; thread 2 then starts [LIST_DEL_LOCKED(48)].  The result
    is what the two exchanges of thread 2 return. *)
Definition schedule_half_written : M (option (ptr * ptr)) :=
  add_locked_until_el_n 16 48 ;;;
  del_locked_claim_own 48.

(** Thread 2 runs [LIST_DEL_LOCKED(48)] and is preempted after its
    exchanges; thread 1 runs [LIST_ADD_LOCKED(16, 48)] to its end; thread 2
    then runs to its end. *)
Definition schedule_both_return : M (option unit) :=
  c <- del_locked_claims 48 ;;
  LIST_ADD_LOCKED 1 16 48 ;;;
  match c with
  | Some (n, p) => del_locked_stores 48 n p
  | None => ret None
  end.

(** ** Running the primitives *)

Lemma bind_Ok {A B} (c : M A) (k : A -> M B) s a s' :
  c s = Ok a s' -> bind c k s = k a s'.
Proof. unfold bind. intros ->. reflexivity. Qed.

Lemma bind_ret {A B} (a : A) (k : A -> M B) s : bind (ret a) k s = k a s.
Proof. reflexivity. Qed.

Lemma bind_assoc {A B C} (c : M A) (k1 : A -> M B) (k2 : B -> M C) s :
  bind (bind c k1) k2 s = bind c (fun a => bind (k1 a) k2) s.
Proof. unfold bind. destruct (c s); reflexivity. Qed.

Lemma load_Ok s sl v : heap s !! sl = Some v -> load sl s = Ok v s.
Proof. unfold load. intros ->. reflexivity. Qed.

Lemma store_Ok s sl v :
  is_Some (heap s !! sl) ->
  store sl v s = Ok tt {| heap := <[sl := v]> (heap s);
                          trace := trace s ++ [EvStore sl v] |}.
Proof. unfold store. intros [w ->]. reflexivity. Qed.

Lemma xchg_Ok s sl old v :
  heap s !! sl = Some old ->
  _HA_ATOMIC_XCHG sl v s = Ok old {| heap := <[sl := v]> (heap s);
                                     trace := trace s ++ [EvXchg sl old v] |}.
Proof. unfold _HA_ATOMIC_XCHG. intros ->. reflexivity. Qed.

Lemma load_inv s sl v s' : load sl s = Ok v s' -> heap s !! sl = Some v /\ s' = s.
Proof.
  unfold load. destruct (heap s !! sl); intros H; inversion H; auto.
Qed.

Lemma store_inv s sl v u s' :
  store sl v s = Ok u s' ->
  is_Some (heap s !! sl) /\
  s' = {| heap := <[sl := v]> (heap s); trace := trace s ++ [EvStore sl v] |}.
Proof.
  unfold store. destruct (heap s !! sl) eqn:E; intros H; inversion H; eauto.
Qed.

Lemma bind_inv {A B} (c : M A) (k : A -> M B) s b s' :
  bind c k s = Ok b s' -> exists a s1, c s = Ok a s1 /\ k a s1 = Ok b s'.
Proof.
  unfold bind. destruct (c s) as [a s1| |s1]; intros H; try discriminate.
  eauto.
Qed.

(** Two slots are different when their fields or their nodes are. *)
Lemma slot_ne_field (a b : ptr) (f g : field) : f <> g -> (a, f) <> (b, g).
Proof. congruence. Qed.

Lemma slot_ne_node (a b : ptr) (f g : field) : a <> b -> (a, f) <> (b, g).
Proof. congruence. Qed.

#[local] Hint Resolve slot_ne_field slot_ne_node : core.

Lemma alloc_insert (h : gmap slot ptr) (k k' : slot) (v : ptr) :
  is_Some (h !! k) -> is_Some (<[k' := v]> h !! k).
Proof.
  intros H. rewrite lookup_insert. destruct (decide (k' = k)); eauto.
Qed.

(** Symbolic execution of straight-line code: each step is a load or a
    store whose slot is looked up in the memory written so far. *)
Ltac look :=
  repeat first
    [ rewrite lookup_insert_eq
    | rewrite lookup_insert_ne by (first [congruence | auto]) ];
  try eassumption; eauto.

Ltac step :=
  first
    [ erewrite (bind_Ok (load _)); [ | apply load_Ok; cbn [heap]; look ]
    | erewrite (bind_Ok (store _ _));
      [ | apply store_Ok; cbn [heap]; repeat apply alloc_insert; eauto ]
    | erewrite (bind_Ok (_HA_ATOMIC_XCHG _ _));
      [ | apply xchg_Ok; cbn [heap]; look ]
    | erewrite (bind_Ok __ha_barrier_store); [ | reflexivity ] ];
  cbn [heap trace].

(** ** What each unlocked macro does *)

Lemma LIST_INIT_spec s l :
  allocated (heap s) l ->
  LIST_INIT l s =
    Ok l {| heap := <[(l, fld_n) := l]> (<[(l, fld_p) := l]> (heap s));
            trace := trace s ++ [EvStore (l, fld_p) l; EvStore (l, fld_n) l] |}.
Proof.
  intros [Hn Hp]. unfold LIST_INIT.
  step. step. unfold ret. rewrite <- app_assoc. reflexivity.
Qed.

Lemma LIST_ADD_spec s lh el nx :
  heap s !! (lh, fld_n) = Some nx ->
  is_Some (heap s !! (nx, fld_p)) ->
  allocated (heap s) el ->
  LIST_ADD lh el s =
    Ok el {| heap := <[(el, fld_p) := lh]> (<[(nx, fld_p) := el]>
                       (<[(lh, fld_n) := el]> (<[(el, fld_n) := nx]> (heap s))));
             trace := trace s ++ [EvStore (el, fld_n) nx; EvStore (lh, fld_n) el;
                                  EvStore (nx, fld_p) el; EvStore (el, fld_p) lh] |}.
Proof.
  intros Hn Hnp [Hen Hep]. unfold LIST_ADD.
  do 6 step. unfold ret. rewrite <- !app_assoc. reflexivity.
Qed.

Lemma LIST_ADDQ_spec s lh el px :
  heap s !! (lh, fld_p) = Some px ->
  is_Some (heap s !! (px, fld_n)) ->
  allocated (heap s) el ->
  LIST_ADDQ lh el s =
    Ok el {| heap := <[(el, fld_n) := lh]> (<[(px, fld_n) := el]>
                       (<[(lh, fld_p) := el]> (<[(el, fld_p) := px]> (heap s))));
             trace := trace s ++ [EvStore (el, fld_p) px; EvStore (lh, fld_p) el;
                                  EvStore (px, fld_n) el; EvStore (el, fld_n) lh] |}.
Proof.
  intros Hp Hpn [Hen Hep]. unfold LIST_ADDQ.
  do 6 step. unfold ret. rewrite <- !app_assoc. reflexivity.
Qed.

(** After [nx->p = px] the reloads of [el->p] and [el->n] in the second
    statement of [LIST_DEL] give the same [px] and [nx] again. *)
Lemma reload_p (h : gmap slot ptr) el nx px :
  h !! (el, fld_p) = Some px ->
  <[(nx, fld_p) := px]> h !! (el, fld_p) = Some px.
Proof.
  intros H. rewrite lookup_insert. destruct (decide ((nx, fld_p) = (el, fld_p))); auto.
Qed.

Lemma LIST_DEL_spec s el nx px :
  heap s !! (el, fld_n) = Some nx ->
  heap s !! (el, fld_p) = Some px ->
  is_Some (heap s !! (nx, fld_p)) ->
  is_Some (heap s !! (px, fld_n)) ->
  LIST_DEL el s =
    Ok el {| heap := <[(px, fld_n) := nx]> (<[(nx, fld_p) := px]> (heap s));
             trace := trace s ++ [EvStore (nx, fld_p) px; EvStore (px, fld_n) nx] |}.
Proof.
  intros Hn Hp Hnp Hpn. unfold LIST_DEL.
  do 3 step.
  erewrite (bind_Ok (load _)); [ | apply load_Ok; cbn [heap]; apply reload_p; eassumption ].
  do 2 step. unfold ret. rewrite <- !app_assoc. reflexivity.
Qed.

Lemma LIST_DEL_INIT_spec s el nx px :
  heap s !! (el, fld_n) = Some nx ->
  heap s !! (el, fld_p) = Some px ->
  is_Some (heap s !! (nx, fld_p)) ->
  is_Some (heap s !! (px, fld_n)) ->
  LIST_DEL_INIT el s =
    Ok el {| heap := <[(el, fld_n) := el]> (<[(el, fld_p) := el]>
                       (<[(px, fld_n) := nx]> (<[(nx, fld_p) := px]> (heap s))));
             trace := trace s ++ [EvStore (nx, fld_p) px; EvStore (px, fld_n) nx;
                                  EvStore (el, fld_p) el; EvStore (el, fld_n) el] |}.
Proof.
  intros Hn Hp Hnp Hpn. unfold LIST_DEL_INIT.
  do 6 step. unfold ret. rewrite <- !app_assoc. reflexivity.
Qed.

(** [LIST_DEL_INIT] is [LIST_DEL] followed by [LIST_INIT] in every state,
    also when a slot they need does not exist. *)
Lemma LIST_DEL_INIT_eq s el :
  LIST_DEL_INIT el s = (LIST_DEL el ;;; LIST_INIT el) s.
Proof.
  destruct (heap s !! (el, fld_n)) as [nx|] eqn:En;
    [ | unfold LIST_DEL_INIT, LIST_DEL, bind, load; rewrite En; reflexivity].
  destruct (heap s !! (el, fld_p)) as [px|] eqn:Ep;
    [ | unfold LIST_DEL_INIT, LIST_DEL, bind, load; rewrite En, Ep; reflexivity].
  destruct (heap s !! (nx, fld_p)) as [v|] eqn:Enp;
    [ | unfold LIST_DEL_INIT, LIST_DEL, bind, load, store; rewrite En, Ep, Enp;
        reflexivity].
  destruct (heap s !! (px, fld_n)) as [w|] eqn:Epn.
  - rewrite (LIST_DEL_INIT_spec _ _ _ _ En Ep) by eauto.
    erewrite (bind_Ok (LIST_DEL el)); [ | apply LIST_DEL_spec; eauto].
    rewrite LIST_INIT_spec.
    + cbn [heap trace]. rewrite <- app_assoc. reflexivity.
    + cbn [heap]. split; repeat apply alloc_insert; eauto.
  - transitivity (@Fault ptr).
    + unfold LIST_DEL_INIT, bind, load, store. rewrite En, Ep, Enp. cbn [heap].
      rewrite lookup_insert_ne by congruence. rewrite Epn. reflexivity.
    + unfold LIST_DEL, bind, load, store. rewrite En, Ep, Enp. cbn [heap].
      rewrite (reload_p _ _ _ _ Ep). cbn [heap].
      rewrite lookup_insert_ne by congruence. rewrite En. cbn [heap].
      rewrite lookup_insert_ne by congruence. rewrite Epn. reflexivity.
Qed.

(** [LIST_ADDED(el)] reads [el->n] and compares it with [el]. *)
Lemma LIST_ADDED_eq s el :
  LIST_ADDED el s =
  match heap s !! (el, fld_n) with
  | Some nx => Ok (bool_decide (nx <> el)) s
  | None => Fault
  end.
Proof.
  unfold LIST_ADDED, bind, load. destruct (heap s !! (el, fld_n)); reflexivity.
Qed.

(** ** Chains and rings *)

Lemma chain_app h a l1 b l2 z :
  chain h a (l1 ++ b :: l2) z <-> chain h a l1 b /\ chain h b l2 z.
Proof.
  revert a. induction l1 as [|c l1 IH]; intros a; simpl.
  - tauto.
  - rewrite IH. tauto.
Qed.

Lemma chain_snoc h a l b z :
  chain h a (l ++ [b]) z <-> chain h a l b /\ link h b z.
Proof. apply chain_app. Qed.

(** A chain only reads the [n] slots of [a :: l] and the [p] slots of
    [l ++ [z]]. *)
Lemma chain_frame h h' a l z :
  (forall x, x ∈ a :: l -> h' !! (x, fld_n) = h !! (x, fld_n)) ->
  (forall x, x ∈ l ++ [z] -> h' !! (x, fld_p) = h !! (x, fld_p)) ->
  chain h a l z -> chain h' a l z.
Proof.
  revert a. induction l as [|b l IH]; intros a Hn Hp; simpl.
  - intros [H1 H2]. split.
    + rewrite Hn; [assumption | set_solver].
    + rewrite Hp; [assumption | set_solver].
  - intros [[H1 H2] H3]. split; [split|].
    + rewrite Hn; [assumption | set_solver].
    + rewrite Hp; [assumption | set_solver].
    + apply IH; [ | | assumption]; intros x Hx.
      * apply Hn. set_solver.
      * apply Hp. set_solver.
Qed.

Lemma chain_succ h a l z x :
  chain h a l z -> x ∈ a :: l -> exists y, link h x y /\ y ∈ l ++ [z].
Proof.
  revert a. induction l as [|b l IH]; intros a; simpl.
  - intros H Hx. exists z. split; [ | set_solver].
    assert (x = a) as -> by set_solver. assumption.
  - intros [H1 H2] Hx. apply elem_of_cons in Hx as [-> | Hx].
    + exists b. split; [assumption | set_solver].
    + destruct (IH b H2 Hx) as (y & Hy1 & Hy2). exists y. split; [assumption | set_solver].
Qed.

Lemma chain_pred h a l z x :
  chain h a l z -> x ∈ l ++ [z] -> exists y, link h y x /\ y ∈ a :: l.
Proof.
  revert a. induction l as [|b l IH]; intros a; simpl.
  - intros H Hx. exists a. split; [ | set_solver].
    assert (x = z) as -> by set_solver. assumption.
  - intros [H1 H2] Hx. apply elem_of_cons in Hx as [-> | Hx].
    + exists a. split; [assumption | set_solver].
    + destruct (IH b H2 Hx) as (y & Hy1 & Hy2). exists y. split; [assumption | set_solver].
Qed.

Lemma chain_reach h r a l z :
  chain h a l z -> reach h r a -> forall y, y ∈ l ++ [z] -> reach h r y.
Proof.
  revert a. induction l as [|b l IH]; intros a; simpl.
  - intros [H1 _] Ha y Hy. assert (y = z) as -> by set_solver.
    eapply reach_next; eassumption.
  - intros [[H1 _] H2] Ha y Hy.
    assert (reach h r b) as Hb by (eapply reach_next; eassumption).
    apply elem_of_cons in Hy as [-> | Hy]; [assumption | ].
    eapply IH; eassumption.
Qed.

(** The members of a ring are the nodes reached from any of them. *)
Lemma ring_reach_closed h x l y z :
  ring h x l -> y ∈ x :: l -> reach h y z -> z ∈ x :: l.
Proof.
  intros [_ Hc] Hy Hr. induction Hr as [ | u v Hr IH Hu]; [assumption | ].
  destruct (chain_succ _ _ _ _ _ Hc IH) as (w & [Hw _] & Hin).
  assert (v = w) as -> by congruence. set_solver.
Qed.

Lemma ring_member_reach h x l y :
  ring h x l -> y ∈ x :: l -> reach h x y.
Proof.
  intros [_ Hc] Hy. apply elem_of_cons in Hy as [-> | Hy]; [constructor | ].
  eapply chain_reach; [eassumption | constructor | set_solver].
Qed.

Lemma ring_reach h x l y : ring h x l -> (reach h x y <-> y ∈ x :: l).
Proof.
  intros H. split.
  - apply (ring_reach_closed _ _ _ _ _ H). set_solver.
  - apply ring_member_reach. assumption.
Qed.

(** Every member of a ring satisfies the doubly-linked invariant. *)
Lemma ring_consistent h x l y : ring h x l -> y ∈ x :: l -> consistent h y.
Proof.
  intros [_ Hc] Hy. split.
  - destruct (chain_succ _ _ _ _ _ Hc Hy) as (w & [H1 H2] & _). eauto.
  - assert (y ∈ l ++ [x]) as Hy' by set_solver.
    destruct (chain_pred _ _ _ _ _ Hc Hy') as (w & [H1 H2] & _). eauto.
Qed.

Lemma ring_allocated h x l y : ring h x l -> y ∈ x :: l -> allocated h y.
Proof.
  intros H Hy. destruct (ring_consistent _ _ _ _ H Hy) as [(a & Ha & _) (b & Hb & _)].
  split; eauto.
Qed.

(** A ring can be read from any of its members. *)
Lemma ring_rotate h x l1 y l2 :
  ring h x (l1 ++ y :: l2) -> ring h y (l2 ++ x :: l1).
Proof.
  intros [Hnd Hc]. apply chain_app in Hc as [H1 H2]. split.
  - eapply NoDup_Permutation_proper; [ | exact Hnd].
    change (y :: l2 ++ x :: l1) with ((y :: l2) ++ x :: l1).
    change (x :: l1 ++ y :: l2) with ((x :: l1) ++ y :: l2).
    apply Permutation_app_comm.
  - apply chain_app. auto.
Qed.

Lemma ring_neighbours h x l nx px :
  ring h x l -> h !! (x, fld_n) = Some nx -> h !! (x, fld_p) = Some px ->
  (l = [] /\ nx = x /\ px = x) \/ (nx ∈ l /\ px ∈ l /\ nx <> x /\ px <> x).
Proof.
  intros [Hnd Hc] Hn Hp. apply NoDup_cons in Hnd as [Hx _].
  destruct l as [|c l' _] using rev_ind.
  - left. destruct Hc as [H1 H2]. repeat split; congruence.
  - right. apply chain_snoc in Hc as [Hc [_ H2]].
    assert (px = c) as -> by congruence.
    assert (nx ∈ l' ++ [c]) as Hnx.
    { destruct l' as [|b l'']; simpl in Hc.
      - destruct Hc as [Hc _]. assert (nx = c) as -> by congruence. set_solver.
      - destruct Hc as [[Hc _] _]. assert (nx = b) as -> by congruence. set_solver. }
    repeat split; [assumption | set_solver | | ]; intros ->; set_solver.
Qed.

(** A member [el] of the list at [lh] has a predecessor and a successor
    that are not [el], with slots that exist. *)
Lemma ring_member_neighbours h lh l el :
  ring h lh l -> el ∈ l ->
  exists pred succ,
    h !! (el, fld_n) = Some succ /\ h !! (el, fld_p) = Some pred /\
    h !! (pred, fld_n) = Some el /\ h !! (succ, fld_p) = Some el /\
    pred <> el /\ succ <> el.
Proof.
  intros Hr Hin. assert (el ∈ lh :: l) as Hin' by set_solver.
  destruct (ring_consistent _ _ _ _ Hr Hin') as [(nx & Hn & Hnp) (px & Hp & Hpn)].
  apply list_elem_of_split in Hin as (l1 & l2 & ->).
  apply ring_rotate in Hr.
  destruct (ring_neighbours _ _ _ _ _ Hr Hn Hp) as [(E & _) | (_ & _ & H1 & H2)].
  - destruct l2; discriminate.
  - exists px, nx. auto 10.
Qed.

(** ** The unlocked macros keep the ring *)

Ltac ne_slot :=
  let E := fresh in
  intros E; injection E; clear E; intros; subst; set_solver.

Ltac look_ne :=
  repeat first
    [ rewrite lookup_insert_eq
    | rewrite lookup_insert_ne by (first [congruence | ne_slot]) ];
  try assumption.

Lemma ring_init h l :
  ring (<[(l, fld_n) := l]> (<[(l, fld_p) := l]> h)) l [].
Proof.
  split.
  - apply NoDup_singleton.
  - simpl. split; look_ne; reflexivity.
Qed.

Lemma ring_head_n h lh l : ring h lh l -> h !! (lh, fld_n) = Some (List.hd lh l).
Proof. intros [_ Hc]. destruct l; simpl in *; unfold link in *; tauto. Qed.

Lemma ring_add h lh l el nx :
  ring h lh l -> el ∉ lh :: l -> h !! (lh, fld_n) = Some nx ->
  ring (<[(el, fld_p) := lh]> (<[(nx, fld_p) := el]>
          (<[(lh, fld_n) := el]> (<[(el, fld_n) := nx]> h)))) lh (el :: l).
Proof.
  intros Hr Hel Hn. pose proof (ring_head_n _ _ _ Hr) as Hhd.
  destruct Hr as [Hnd Hc]. split.
  - apply NoDup_cons in Hnd as [H1 H2].
    apply NoDup_cons. split; [set_solver | ].
    apply NoDup_cons. split; [set_solver | assumption].
  - assert (nx = List.hd lh l) as -> by congruence.
    apply NoDup_cons in Hnd as [H1 H2].
    simpl. split; [split; look_ne; reflexivity | ].
    destruct l as [|b r]; simpl in *.
    + split; look_ne; reflexivity.
    + destruct Hc as [_ Hc]. apply NoDup_cons in H2 as [H2 H3].
      split; [split; look_ne; reflexivity | ].
      eapply chain_frame; [ | | exact Hc]; intros x Hx; look_ne; reflexivity.
Qed.

Lemma ring_addq h lh l el px :
  ring h lh l -> el ∉ lh :: l -> h !! (lh, fld_p) = Some px ->
  ring (<[(el, fld_n) := lh]> (<[(px, fld_n) := el]>
          (<[(lh, fld_p) := el]> (<[(el, fld_p) := px]> h)))) lh (l ++ [el]).
Proof.
  intros [Hnd Hc] Hel Hp. split.
  - change (lh :: l ++ [el]) with ((lh :: l) ++ [el]).
    apply NoDup_app. split; [assumption | ].
    split; [ | apply NoDup_singleton]. set_solver.
  - apply chain_snoc. split; [ | split; look_ne; reflexivity].
    apply NoDup_cons in Hnd as [H1 H2].
    destruct l as [|pr l' _] using rev_ind; simpl in *.
    + destruct Hc as [_ Hc]. assert (px = lh) as -> by congruence.
      split; look_ne; reflexivity.
    + apply chain_snoc in Hc as [Hc [_ Hl]].
      assert (px = pr) as -> by congruence.
      apply NoDup_app in H2 as (H2 & H3 & _).
      apply chain_snoc. split; [ | split; look_ne; reflexivity].
      eapply chain_frame; [ | | exact Hc]; intros x Hx; look_ne; reflexivity.
Qed.

(** Unlinking [el] from between its neighbours [pred] and [succ]. *)
Lemma chain_bypass h a l1 el l2 z pred succ :
  h !! (el, fld_n) = Some succ -> h !! (el, fld_p) = Some pred ->
  NoDup (a :: l1 ++ el :: l2) -> z ∉ l1 ++ el :: l2 ->
  chain h a l1 el -> chain h el l2 z ->
  chain (<[(pred, fld_n) := succ]> (<[(succ, fld_p) := pred]> h)) a (l1 ++ l2) z.
Proof.
  intros Hn Hp. revert a. induction l1 as [|b l1 IH]; intros a Hnd Hz H1 H2.
  - simpl in *. destruct H1 as [_ H1]. assert (pred = a) as -> by congruence.
    apply NoDup_cons in Hnd as [Ha Hnd]. apply NoDup_cons in Hnd as [He Hnd].
    destruct l2 as [|sc r]; simpl in *.
    + destruct H2 as [H2 _]. assert (succ = z) as -> by congruence.
      split; look_ne; reflexivity.
    + destruct H2 as [[H2 _] H3]. assert (succ = sc) as -> by congruence.
      apply NoDup_cons in Hnd as [Hs Hnd].
      split; [split; look_ne; reflexivity | ].
      eapply chain_frame; [ | | exact H3]; intros x Hx; look_ne; reflexivity.
  - simpl in H1. destruct H1 as [[Hab Hba] H1].
    assert (pred ∈ b :: l1) as Hpred.
    { assert (el ∈ l1 ++ [el]) as Hin by set_solver.
      destruct (chain_pred _ _ _ _ _ H1 Hin) as (y & [_ Hy] & Hy').
      assert (pred = y) as -> by congruence. assumption. }
    assert (succ ∈ l2 ++ [z]) as Hsucc.
    { assert (el ∈ el :: l2) as Hin by set_solver.
      destruct (chain_succ _ _ _ _ _ H2 Hin) as (y & [Hy _] & Hy').
      assert (succ = y) as -> by congruence. assumption. }
    pose proof Hnd as Hnd'.
    change (a :: (b :: l1) ++ el :: l2) with (a :: b :: l1 ++ el :: l2) in Hnd.
    apply NoDup_cons in Hnd as [Ha Hnd]. pose proof Hnd as Hnd2.
    apply NoDup_cons in Hnd2 as [Hb _].
    simpl. split.
    + split; look_ne; reflexivity.
    + apply IH; [assumption | set_solver | assumption | assumption].
Qed.

Lemma ring_del h lh l1 el l2 pred succ :
  ring h lh (l1 ++ el :: l2) ->
  h !! (el, fld_n) = Some succ -> h !! (el, fld_p) = Some pred ->
  ring (<[(pred, fld_n) := succ]> (<[(succ, fld_p) := pred]> h)) lh (l1 ++ l2).
Proof.
  intros [Hnd Hc] Hn Hp. apply chain_app in Hc as [H1 H2]. split.
  - apply NoDup_cons in Hnd as [Ha Hnd]. apply NoDup_app in Hnd as (N1 & N2 & N3).
    apply NoDup_cons in N3 as [N3 N4].
    apply NoDup_cons. split; [set_solver | ].
    apply NoDup_app. split; [assumption | ]. split; [set_solver | assumption].
  - eapply chain_bypass; try eassumption.
    apply NoDup_cons in Hnd as [Ha Hnd]. assumption.
Qed.

Lemma ring_del_init h lh l1 el l2 pred succ :
  ring h lh (l1 ++ el :: l2) ->
  h !! (el, fld_n) = Some succ -> h !! (el, fld_p) = Some pred ->
  ring (<[(el, fld_n) := el]> (<[(el, fld_p) := el]>
          (<[(pred, fld_n) := succ]> (<[(succ, fld_p) := pred]> h)))) lh (l1 ++ l2).
Proof.
  intros Hr Hn Hp. pose proof (ring_del _ _ _ _ _ _ _ Hr Hn Hp) as [Hnd Hc].
  split; [assumption | ].
  destruct Hr as [Hnd0 _].
  apply NoDup_cons in Hnd0 as [Ha Hnd0]. apply NoDup_app in Hnd0 as (N1 & N2 & N3).
  apply NoDup_cons in N3 as [N3 N4].
  eapply chain_frame; [ | | exact Hc]; intros x Hx; look_ne; reflexivity.
Qed.

Lemma LIST_INIT_allocated s l r s' :
  LIST_INIT l s = Ok r s' -> allocated (heap s) l.
Proof.
  unfold LIST_INIT. intros H.
  apply bind_inv in H as (u & s1 & H1 & H).
  apply store_inv in H1 as [Hp ->].
  apply bind_inv in H as (u' & s2 & H2 & _).
  apply store_inv in H2 as [Hn _]. cbn [heap] in Hn.
  rewrite lookup_insert_ne in Hn by congruence. split; assumption.
Qed.

(** A legal call on a ring does not fault and leaves a ring. *)
Lemma run_op_ring lh s o l :
  ring (heap s) lh l -> legal lh (heap s) o ->
  exists r s' l', run_op lh o s = Ok r s' /\ ring (heap s') lh l'.
Proof.
  intros Hr Hl.
  assert (lh ∈ lh :: l) as Hlh by set_solver.
  destruct o as [el|el|el|el]; simpl in *.
  - destruct Hl as [Ha Hnr].
    assert (el ∉ lh :: l) as Hel.
    { intros Hin. apply Hnr. eapply ring_member_reach; eassumption. }
    destruct (ring_consistent _ _ _ _ Hr Hlh) as [(nx & Hn & Hnp) _].
    eexists _, _, _. split.
    + apply LIST_ADD_spec; eauto.
    + cbn [heap]. eapply ring_add; eassumption.
  - destruct Hl as [Ha Hnr].
    assert (el ∉ lh :: l) as Hel.
    { intros Hin. apply Hnr. eapply ring_member_reach; eassumption. }
    destruct (ring_consistent _ _ _ _ Hr Hlh) as [_ (px & Hp & Hpn)].
    eexists _, _, _. split.
    + apply LIST_ADDQ_spec; eauto.
    + cbn [heap]. eapply ring_addq; eassumption.
  - destruct Hl as [Hre Hne].
    apply (ring_reach _ _ _ _ Hr) in Hre as Hin.
    destruct (ring_consistent _ _ _ _ Hr Hin) as [(nx & Hn & Hnp) (px & Hp & Hpn)].
    assert (el ∈ l) as Hin' by set_solver.
    apply list_elem_of_split in Hin' as (l1 & l2 & ->).
    eexists _, _, _. split.
    + apply LIST_DEL_spec; eauto.
    + cbn [heap]. eapply ring_del; eassumption.
  - destruct Hl as [Hre Hne].
    apply (ring_reach _ _ _ _ Hr) in Hre as Hin.
    destruct (ring_consistent _ _ _ _ Hr Hin) as [(nx & Hn & Hnp) (px & Hp & Hpn)].
    assert (el ∈ l) as Hin' by set_solver.
    apply list_elem_of_split in Hin' as (l1 & l2 & ->).
    eexists _, _, _. split.
    + apply LIST_DEL_INIT_spec; eauto.
    + cbn [heap]. eapply ring_del_init; eassumption.
Qed.

Lemma built_ring lh s : built lh s -> exists l, ring (heap s) lh l.
Proof.
  induction 1 as [s r s' Hi | s o r s' Hb [l IH] Hl Hrun].
  - pose proof (LIST_INIT_allocated _ _ _ _ Hi) as Ha.
    rewrite (LIST_INIT_spec _ _ Ha) in Hi. inversion Hi; subst; cbn [heap].
    exists []. apply ring_init.
  - destruct (run_op_ring _ _ _ _ IH Hl) as (r' & s'' & l' & Hrun' & Hr').
    rewrite Hrun' in Hrun. inversion Hrun; subst. eauto.
Qed.

(** A legal call on a list built with the unlocked macros returns. *)
Lemma built_progress lh s o :
  built lh s -> legal lh (heap s) o -> exists r s', run_op lh o s = Ok r s'.
Proof.
  intros Hb Hl. destruct (built_ring _ _ Hb) as [l Hr].
  destruct (run_op_ring _ _ _ _ Hr Hl) as (r & s' & _ & H & _). eauto.
Qed.

(** ** Forward traversal *)

Lemma member_of_LIST_ELEM v off : member_of (LIST_ELEM v off) off = v.
Proof. unfold member_of, LIST_ELEM. lia. Qed.

Lemma detached_allocated h x : detached h x -> allocated h x.
Proof. intros [H1 H2]. split; eauto. Qed.

(** One iteration of [list_for_each_entry_from] on a node that is not the
    head: the item is visited and the loop moves to the next node. *)
Lemma for_each_visit_step fuel off lh x nx acc s :
  x <> lh -> heap s !! (x, fld_n) = Some nx ->
  list_for_each_entry_from (S fuel) off lh visit (LIST_ELEM x off) acc s =
  list_for_each_entry_from fuel off lh visit (LIST_ELEM nx off)
    (acc ++ [LIST_ELEM x off]) s.
Proof.
  intros Hx Hn. simpl. rewrite member_of_LIST_ELEM.
  destruct (decide (x = lh)) as [|_]; [contradiction | ].
  unfold visit at 1. unfold bind at 1. unfold ret at 1.
  erewrite (bind_Ok (load _)); [ | apply load_Ok; eassumption ].
  reflexivity.
Qed.

Lemma for_each_visit_stop fuel off lh acc s :
  list_for_each_entry_from (S fuel) off lh visit (LIST_ELEM lh off) acc s = Ok acc s.
Proof.
  simpl. rewrite member_of_LIST_ELEM.
  destruct (decide (lh = lh)) as [_|]; [reflexivity | contradiction].
Qed.

(** Walking a chain visits its nodes in order. *)
Lemma for_each_chain off lh s a l acc fuel :
  chain (heap s) a l lh -> lh ∉ l -> (length l < fuel)%nat ->
  forall nx, heap s !! (a, fld_n) = Some nx ->
  list_for_each_entry_from fuel off lh visit (LIST_ELEM nx off) acc s =
  Ok (acc ++ map (fun x => LIST_ELEM x off) l) s.
Proof.
  revert a acc fuel. induction l as [|b l IH]; intros a acc fuel Hc Hl Hf nx Hn.
  - simpl in *. destruct Hc as [Hc _]. assert (nx = lh) as -> by congruence.
    destruct fuel as [|fuel]; [lia | ].
    rewrite for_each_visit_stop, app_nil_r. reflexivity.
  - simpl in Hc. destruct Hc as [[Hab _] Hc]. assert (nx = b) as -> by congruence.
    destruct fuel as [|fuel]; [simpl in Hf; lia | ].
    assert (exists nb, heap s !! (b, fld_n) = Some nb) as [nb Hnb].
    { destruct l; simpl in Hc; unfold link in Hc; destruct Hc as [Hc _]; [eauto | destruct Hc; eauto]. }
    rewrite (for_each_visit_step _ _ _ _ nb) by (first [set_solver | assumption]).
    rewrite (IH b); [ | assumption | set_solver | simpl in Hf; lia | assumption].
    rewrite <- app_assoc. reflexivity.
Qed.

(** Forward traversal of a list yields its content. *)
Lemma list_for_each_entry_ring off lh s l fuel :
  ring (heap s) lh l -> (length l < fuel)%nat ->
  list_for_each_entry fuel off lh visit [] s =
  Ok (map (fun x => LIST_ELEM x off) l) s.
Proof.
  intros Hr Hf. pose proof (ring_head_n _ _ _ Hr) as Hn. destruct Hr as [Hnd Hc].
  unfold list_for_each_entry.
  erewrite (bind_Ok (load _)); [ | apply load_Ok; eassumption ].
  apply NoDup_cons in Hnd as [Hlh _].
  erewrite for_each_chain; eauto.
Qed.

(** ** Adding to a list, at the level of its content *)

Lemma allocated_insert (h : gmap slot ptr) k v x :
  allocated h x -> allocated (<[k := v]> h) x.
Proof. intros [H1 H2]. split; apply alloc_insert; assumption. Qed.

Lemma detached_ring h x : detached h x -> ring h x [].
Proof.
  intros [H1 H2]. split; [apply NoDup_singleton | ]. split; assumption.
Qed.

Lemma ring_nil_detached h x : ring h x [] -> detached h x.
Proof. intros [_ [H1 H2]]. split; assumption. Qed.

Lemma LIST_ADD_ring s lh l el :
  ring (heap s) lh l -> allocated (heap s) el -> el ∉ lh :: l ->
  exists s', LIST_ADD lh el s = Ok el s' /\ ring (heap s') lh (el :: l) /\
             (forall x, allocated (heap s) x -> allocated (heap s') x).
Proof.
  intros Hr Ha Hel. assert (lh ∈ lh :: l) as Hlh by set_solver.
  destruct (ring_consistent _ _ _ _ Hr Hlh) as [(nx & Hn & Hnp) _].
  eexists. split; [apply LIST_ADD_spec; eauto | ]. cbn [heap]. split.
  - apply ring_add; assumption.
  - intros x Hx. repeat apply allocated_insert. assumption.
Qed.

Lemma LIST_ADDQ_ring s lh l el :
  ring (heap s) lh l -> allocated (heap s) el -> el ∉ lh :: l ->
  exists s', LIST_ADDQ lh el s = Ok el s' /\ ring (heap s') lh (l ++ [el]) /\
             (forall x, allocated (heap s) x -> allocated (heap s') x).
Proof.
  intros Hr Ha Hel. assert (lh ∈ lh :: l) as Hlh by set_solver.
  destruct (ring_consistent _ _ _ _ Hr Hlh) as [_ (px & Hp & Hpn)].
  eexists. split; [apply LIST_ADDQ_spec; eauto | ]. cbn [heap]. split.
  - apply ring_addq; assumption.
  - intros x Hx. repeat apply allocated_insert. assumption.
Qed.

(** ** Properties of the unlocked macros *)

(** C1. For every list built only with the unlocked macros [LIST_ADD],
    [LIST_ADDQ], [LIST_DEL] and [LIST_DEL_INIT] from a head initialised with
    [LIST_INIT], in every state between two calls the head satisfies
    [head->n->p == head], and every node [x] reached from the head by
    following [n] satisfies [x->n->p == x] and [x->p->n == x]. *)
Theorem C1_unlocked_invariant lh s :
  built lh s ->
  (exists nx, heap s !! (lh, fld_n) = Some nx /\ heap s !! (nx, fld_p) = Some lh) /\
  (forall x, reach (heap s) lh x -> consistent (heap s) x).
Proof.
  intros Hb. destruct (built_ring _ _ Hb) as [l Hr]. split.
  - assert (lh ∈ lh :: l) as Hlh by set_solver.
    destruct (ring_consistent _ _ _ _ Hr Hlh) as [H _]. exact H.
  - intros x Hx. apply (ring_reach _ _ _ _ Hr) in Hx.
    eapply ring_consistent; eassumption.
Qed.

Lemma reach_self_loop h a x :
  h !! (a, fld_n) = Some a -> reach h a x -> x = a.
Proof.
  intros Ha. induction 1 as [ | y x Hy IH Hx]; [reflexivity | ].
  subst y. congruence.
Qed.

Lemma C1_unlocked_invariant_witness :
  let s := final (LIST_INIT 16 ;;; LIST_ADD 16 32) st3 in
  (exists nx, heap s !! (16, fld_n) = Some nx /\ heap s !! (nx, fld_p) = Some 16) /\
  (forall x, reach (heap s) 16 x -> consistent (heap s) x).
Proof.
  apply C1_unlocked_invariant.
  apply (built_op 16 (final (LIST_INIT 16) st3) (OpAdd 32) 32).
  - apply (built_init 16 st3 16). vm_compute. reflexivity.
  - simpl. split.
    + split; vm_compute; eauto.
    + intros Hr. apply reach_self_loop in Hr; [discriminate | vm_compute; reflexivity].
  - vm_compute. reflexivity.
Defined.

(** C2. For an initialised empty head [lh] and two detached nodes [a] and
    [b], after [LIST_ADDQ(lh, a); LIST_ADDQ(lh, b)] the forward traversal
    [list_for_each_entry] from [lh] visits exactly [a] then [b], and after
    [LIST_ADD(lh, a); LIST_ADD(lh, b)] it visits exactly [b] then [a] (the
    items are the hosts of the nodes, [LIST_ELEM] of each), provided the loop
    may test its condition three times. *)
Theorem C2_order_preservation s lh a b off fuel :
  detached (heap s) lh -> detached (heap s) a -> detached (heap s) b ->
  a <> lh -> b <> lh -> a <> b -> (3 <= fuel)%nat ->
  (exists s', (LIST_ADDQ lh a ;;; LIST_ADDQ lh b ;;;
               list_for_each_entry fuel off lh visit []) s =
              Ok [LIST_ELEM a off; LIST_ELEM b off] s') /\
  (exists s', (LIST_ADD lh a ;;; LIST_ADD lh b ;;;
               list_for_each_entry fuel off lh visit []) s =
              Ok [LIST_ELEM b off; LIST_ELEM a off] s').
Proof.
  intros Hlh Ha Hb Hne1 Hne2 Hne3 Hf.
  apply detached_ring in Hlh. apply detached_allocated in Ha, Hb.
  split.
  - destruct (LIST_ADDQ_ring s lh [] a) as (s1 & E1 & R1 & A1);
      [assumption | assumption | set_solver | ].
    destruct (LIST_ADDQ_ring s1 lh [a] b) as (s2 & E2 & R2 & _);
      [assumption | auto | set_solver | ].
    exists s2. rewrite (bind_Ok _ _ _ _ _ E1), (bind_Ok _ _ _ _ _ E2).
    rewrite (list_for_each_entry_ring _ _ _ _ _ R2) by (simpl; lia).
    reflexivity.
  - destruct (LIST_ADD_ring s lh [] a) as (s1 & E1 & R1 & A1);
      [assumption | assumption | set_solver | ].
    destruct (LIST_ADD_ring s1 lh [a] b) as (s2 & E2 & R2 & _);
      [assumption | auto | set_solver | ].
    exists s2. rewrite (bind_Ok _ _ _ _ _ E1), (bind_Ok _ _ _ _ _ E2).
    rewrite (list_for_each_entry_ring _ _ _ _ _ R2) by (simpl; lia).
    reflexivity.
Qed.

Lemma C2_order_preservation_witness :
  (exists s', (LIST_ADDQ 16 32 ;;; LIST_ADDQ 16 48 ;;;
               list_for_each_entry 3 0 16 visit []) (final (LIST_INIT 16) st3) =
              Ok [LIST_ELEM 32 0; LIST_ELEM 48 0] s') /\
  (exists s', (LIST_ADD 16 32 ;;; LIST_ADD 16 48 ;;;
               list_for_each_entry 3 0 16 visit []) (final (LIST_INIT 16) st3) =
              Ok [LIST_ELEM 48 0; LIST_ELEM 32 0] s').
Proof.
  apply C2_order_preservation.
  - split; vm_compute; reflexivity.
  - split; vm_compute; reflexivity.
  - split; vm_compute; reflexivity.
  - lia.
  - lia.
  - lia.
  - lia.
Defined.

(** C3. For an initialised empty head [lh] and a detached node [a],
    [LIST_ADD(lh, a)] followed by [LIST_DEL_INIT(a)] leaves the head empty
    ([LIST_ISEMPTY(lh)] holds, [lh->n == lh] and [lh->p == lh]) and the node
    detached ([a->n == a] and [a->p == a]); the memory is the one before the
    two calls. *)
Theorem C3_add_del_init_round_trip s lh a :
  detached (heap s) lh -> detached (heap s) a -> a <> lh ->
  exists s',
    (LIST_ADD lh a ;;; LIST_DEL_INIT a) s = Ok a s' /\
    LIST_ISEMPTY lh s' = Ok true s' /\
    detached (heap s') lh /\ detached (heap s') a /\
    heap s' = heap s.
Proof.
  intros [Hn Hp] [Han Hap] Hne.
  eexists. split.
  { erewrite (bind_Ok (LIST_ADD lh a));
      [ | apply LIST_ADD_spec; [eassumption | eauto | split; eauto] ].
    apply LIST_DEL_INIT_spec; cbn [heap].
    - look.
    - look.
    - repeat apply alloc_insert; eauto.
    - repeat apply alloc_insert; eauto. }
  cbn [heap].
  assert (forall x f v, heap s !! (x, f) = Some v ->
            (<[(a, fld_n):=a]> (<[(a, fld_p):=a]> (<[(lh, fld_n):=lh]>
              (<[(lh, fld_p):=lh]> (<[(a, fld_p):=lh]> (<[(lh, fld_p):=a]>
                (<[(lh, fld_n):=a]> (<[(a, fld_n):=lh]> (heap s)))))))))
              !! (x, f) = Some v) as Hsame.
  { intros x f v Hv. rewrite !lookup_insert.
    repeat case_decide; simplify_eq; congruence. }
  split; [ | split; [ | split; [ | ] ] ].
  - unfold LIST_ISEMPTY.
    erewrite (bind_Ok (load _)); [ | apply load_Ok; cbn [heap]; apply Hsame; eassumption ].
    unfold ret. rewrite bool_decide_eq_true_2 by reflexivity. reflexivity.
  - split; apply Hsame; assumption.
  - split; apply Hsame; assumption.
  - apply map_eq. intros [x f]. rewrite !lookup_insert.
    repeat case_decide; simplify_eq; first [congruence | symmetry; assumption].
Qed.

Lemma C3_add_del_init_round_trip_witness :
  exists s',
    (LIST_ADD 16 32 ;;; LIST_DEL_INIT 32) (final (LIST_INIT 16) st3) = Ok 32 s' /\
    LIST_ISEMPTY 16 s' = Ok true s' /\
    detached (heap s') 16 /\ detached (heap s') 32 /\
    heap s' = heap (final (LIST_INIT 16) st3).
Proof.
  apply C3_add_del_init_round_trip.
  - split; vm_compute; reflexivity.
  - split; vm_compute; reflexivity.
  - lia.
Defined.

(** C4. For a node [el] of a well-formed list, [LIST_DEL_INIT(el)] ends in
    exactly the state that [LIST_DEL(el)] followed by [LIST_INIT(el)] ends
    in: the predecessor's [n] is the old successor, the successor's [p] is
    the old predecessor, and [el->n == el->p == el]; both return [el]. *)
Theorem C4_del_init_is_del_then_init s lh l el :
  ring (heap s) lh l -> el ∈ l ->
  exists s' s1 pred succ,
    heap s !! (el, fld_n) = Some succ /\ heap s !! (el, fld_p) = Some pred /\
    LIST_DEL_INIT el s = Ok el s' /\
    LIST_DEL el s = Ok el s1 /\ LIST_INIT el s1 = Ok el s' /\
    (LIST_DEL el ;;; LIST_INIT el) s = Ok el s' /\
    heap s' !! (pred, fld_n) = Some succ /\
    heap s' !! (succ, fld_p) = Some pred /\
    detached (heap s') el.
Proof.
  intros Hr Hin.
  destruct (ring_member_neighbours _ _ _ _ Hr Hin)
    as (pred & succ & Hn & Hp & Hpn & Hsp & Hne1 & Hne2).
  assert (LIST_DEL el s =
            Ok el {| heap := <[(pred, fld_n) := succ]> (<[(succ, fld_p) := pred]> (heap s));
                     trace := trace s ++ [EvStore (succ, fld_p) pred;
                                          EvStore (pred, fld_n) succ] |}) as Hdel
    by (apply LIST_DEL_spec; eauto).
  assert (LIST_INIT el
            {| heap := <[(pred, fld_n) := succ]> (<[(succ, fld_p) := pred]> (heap s));
               trace := trace s ++ [EvStore (succ, fld_p) pred;
                                    EvStore (pred, fld_n) succ] |} =
          Ok el {| heap := <[(el, fld_n) := el]> (<[(el, fld_p) := el]>
                     (<[(pred, fld_n) := succ]> (<[(succ, fld_p) := pred]> (heap s))));
                   trace := trace s ++ [EvStore (succ, fld_p) pred; EvStore (pred, fld_n) succ;
                                        EvStore (el, fld_p) el; EvStore (el, fld_n) el] |})
    as Hinit.
  { rewrite LIST_INIT_spec.
    - cbn [heap trace]. rewrite <- app_assoc. reflexivity.
    - cbn [heap]. split; repeat apply alloc_insert; eauto. }
  eexists _, _, pred, succ.
  split; [exact Hn | ]. split; [exact Hp | ].
  split; [apply LIST_DEL_INIT_spec; eauto | ].
  split; [exact Hdel | ]. split; [exact Hinit | ].
  split; [rewrite (bind_Ok _ _ _ _ _ Hdel); exact Hinit | ].
  cbn [heap]. split; [look | ]. split; [look | ]. split; look.
Qed.

Lemma C4_del_init_is_del_then_init_witness :
  exists s' s1 pred succ,
    heap (final (LIST_INIT 16 ;;; LIST_ADD 16 32) st3) !! (32, fld_n) = Some succ /\
    heap (final (LIST_INIT 16 ;;; LIST_ADD 16 32) st3) !! (32, fld_p) = Some pred /\
    LIST_DEL_INIT 32 (final (LIST_INIT 16 ;;; LIST_ADD 16 32) st3) = Ok 32 s' /\
    LIST_DEL 32 (final (LIST_INIT 16 ;;; LIST_ADD 16 32) st3) = Ok 32 s1 /\
    LIST_INIT 32 s1 = Ok 32 s' /\
    (LIST_DEL 32 ;;; LIST_INIT 32) (final (LIST_INIT 16 ;;; LIST_ADD 16 32) st3) = Ok 32 s' /\
    heap s' !! (pred, fld_n) = Some succ /\
    heap s' !! (succ, fld_p) = Some pred /\
    detached (heap s') 32.
Proof.
  apply (C4_del_init_is_del_then_init _ 16 [32] 32).
  - split.
    + compute_done.
    + repeat split; vm_compute; reflexivity.
  - set_solver.
Defined.

(** C5. For a node [el] of a well-formed list, [LIST_DEL(el)] writes two
    slots only: the predecessor's [n] becomes the old successor of [el] and
    the successor's [p] becomes the old predecessor of [el]; the fields of
    [el] still point at the old neighbours, every other slot keeps its
    contents, and the macro returns [el]. *)
Theorem C5_del_frame s lh l el :
  ring (heap s) lh l -> el ∈ l ->
  exists s' pred succ,
    heap s !! (el, fld_n) = Some succ /\ heap s !! (el, fld_p) = Some pred /\
    LIST_DEL el s = Ok el s' /\
    heap s' !! (pred, fld_n) = Some succ /\
    heap s' !! (succ, fld_p) = Some pred /\
    heap s' !! (el, fld_n) = Some succ /\
    heap s' !! (el, fld_p) = Some pred /\
    (forall sl, sl <> (pred, fld_n) -> sl <> (succ, fld_p) ->
                heap s' !! sl = heap s !! sl) /\
    trace s' = trace s ++ [EvStore (succ, fld_p) pred; EvStore (pred, fld_n) succ].
Proof.
  intros Hr Hin.
  destruct (ring_member_neighbours _ _ _ _ Hr Hin)
    as (pred & succ & Hn & Hp & Hpn & Hsp & Hne1 & Hne2).
  eexists _, pred, succ.
  split; [exact Hn | ]. split; [exact Hp | ].
  split; [apply LIST_DEL_spec; eauto | ].
  cbn [heap trace].
  split; [look | ]. split; [look | ]. split; [look | ]. split; [look | ].
  split; [ | reflexivity].
  intros sl H1 H2. rewrite !lookup_insert_ne by congruence. reflexivity.
Qed.

Lemma C5_del_frame_witness :
  exists s' pred succ,
    heap (final (LIST_INIT 16 ;;; LIST_ADD 16 32) st3) !! (32, fld_n) = Some succ /\
    heap (final (LIST_INIT 16 ;;; LIST_ADD 16 32) st3) !! (32, fld_p) = Some pred /\
    LIST_DEL 32 (final (LIST_INIT 16 ;;; LIST_ADD 16 32) st3) = Ok 32 s' /\
    heap s' !! (pred, fld_n) = Some succ /\
    heap s' !! (succ, fld_p) = Some pred /\
    heap s' !! (32, fld_n) = Some succ /\
    heap s' !! (32, fld_p) = Some pred /\
    (forall sl, sl <> (pred, fld_n) -> sl <> (succ, fld_p) ->
                heap s' !! sl =
                heap (final (LIST_INIT 16 ;;; LIST_ADD 16 32) st3) !! sl) /\
    trace s' = trace (final (LIST_INIT 16 ;;; LIST_ADD 16 32) st3) ++
               [EvStore (succ, fld_p) pred; EvStore (pred, fld_n) succ].
Proof.
  apply (C5_del_frame _ 16 [32] 32).
  - split.
    + compute_done.
    + repeat split; vm_compute; reflexivity.
  - set_solver.
Defined.

(** C6. [LIST_ADDED(el)] is true exactly when [el->n != el].  Hence a node
    [el] taken out of a well-formed list with [LIST_DEL], without being
    initialised again, still answers true to [LIST_ADDED] although it is not
    in the list any more: the list keeps its other nodes, and [el] is reached
    from none of them. *)
Theorem C6_added_after_del s lh l el :
  ring (heap s) lh l -> el ∈ l ->
  (forall s0 x,
     LIST_ADDED x s0 =
     match heap s0 !! (x, fld_n) with
     | Some nx => Ok (bool_decide (nx <> x)) s0
     | None => Fault
     end) /\
  exists s' l1 l2 nx,
    l = l1 ++ el :: l2 /\
    LIST_DEL el s = Ok el s' /\
    heap s' !! (el, fld_n) = Some nx /\ nx <> el /\
    LIST_ADDED el s' = Ok true s' /\
    ring (heap s') lh (l1 ++ l2) /\
    forall x, x ∈ lh :: l1 ++ l2 -> ~ reach (heap s') x el.
Proof.
  intros Hr Hin. split; [exact LIST_ADDED_eq | ].
  destruct (ring_member_neighbours _ _ _ _ Hr Hin)
    as (pred & succ & Hn & Hp & Hpn & Hsp & Hne1 & Hne2).
  apply list_elem_of_split in Hin as (l1 & l2 & ->).
  pose proof (ring_del _ _ _ _ _ _ _ Hr Hn Hp) as Hr'.
  eexists _, l1, l2, succ. split; [reflexivity | ].
  split; [apply LIST_DEL_spec; eauto | ].
  cbn [heap]. split; [look | ]. split; [assumption | ].
  split; [ | split; [exact Hr' | ] ].
  - rewrite LIST_ADDED_eq. cbn [heap].
    rewrite !lookup_insert_ne by congruence. rewrite Hn.
    rewrite bool_decide_eq_true_2 by assumption. reflexivity.
  - intros x Hx Hreach.
    pose proof (ring_reach_closed _ _ _ _ _ Hr' Hx Hreach) as Hel.
    destruct Hr as [Hnd _].
    apply NoDup_cons in Hnd as [Ha Hnd]. apply NoDup_app in Hnd as (N1 & N2 & N3).
    apply NoDup_cons in N3 as [N3 _]. set_solver.
Qed.

Lemma C6_added_after_del_witness :
  (forall s0 x,
     LIST_ADDED x s0 =
     match heap s0 !! (x, fld_n) with
     | Some nx => Ok (bool_decide (nx <> x)) s0
     | None => Fault
     end) /\
  exists s' l1 l2 nx,
    [32] = l1 ++ 32 :: l2 /\
    LIST_DEL 32 (final (LIST_INIT 16 ;;; LIST_ADD 16 32) st3) = Ok 32 s' /\
    heap s' !! (32, fld_n) = Some nx /\ nx <> 32 /\
    LIST_ADDED 32 s' = Ok true s' /\
    ring (heap s') 16 (l1 ++ l2) /\
    forall x, x ∈ 16 :: l1 ++ l2 -> ~ reach (heap s') x 32.
Proof.
  apply (C6_added_after_del _ 16 [32] 32).
  - split.
    + compute_done.
    + repeat split; vm_compute; reflexivity.
  - set_solver.
Defined.

(** ** The locked macros without contention *)

Lemma while1_break {A} (body : M (option A)) fuel s a s' :
  body s = Ok (Some a) s' -> while1 (S fuel) body s = Ok a s'.
Proof. simpl. intros ->. reflexivity. Qed.

Lemma while1_continue {A} (body : M (option A)) fuel s s' :
  body s = Ok None s' -> while1 (S fuel) body s = while1 fuel body s'.
Proof. simpl. intros ->. reflexivity. Qed.

(** A loop whose body always ends in [continue] is still running when the
    fuel is exhausted, whatever the fuel. *)
Lemma while1_spin {A} (body : M (option A)) (P : state -> Prop) :
  (forall s, P s -> exists s', body s = Ok None s' /\ P s') ->
  forall fuel s, P s -> exists s', while1 fuel body s = Spin s' /\ P s'.
Proof.
  intros Hbody. induction fuel as [|fuel IH]; intros s Hs.
  - exists s. split; [reflexivity | assumption].
  - destruct (Hbody s Hs) as (s1 & E & Hs1).
    rewrite (while1_continue _ _ _ _ E). apply IH. assumption.
Qed.

(** Exchanging the marker for the marker leaves the memory as it is. *)
Lemma xchg_busy s sl :
  heap s !! sl = Some LLIST_BUSY ->
  exists s', _HA_ATOMIC_XCHG sl LLIST_BUSY s = Ok LLIST_BUSY s' /\ heap s' = heap s.
Proof.
  intros H. eexists. split; [apply xchg_Ok; exact H | ].
  cbn [heap]. apply insert_id. exact H.
Qed.

Ltac decide_true :=
  match goal with
  | |- context [decide ?P] => destruct (decide P) as [?|?]; [ | congruence]
  end.

Ltac decide_false :=
  match goal with
  | |- context [decide ?P] => destruct (decide P) as [?|?]; [congruence | ]
  end.

Lemma LIST_ADD_LOCKED_spin s lh el fuel :
  heap s !! (lh, fld_n) = Some LLIST_BUSY ->
  exists s', LIST_ADD_LOCKED fuel lh el s = Spin s' /\ heap s' = heap s.
Proof.
  intros H. unfold LIST_ADD_LOCKED.
  apply (while1_spin _ (fun s' => heap s' = heap s)); [ | reflexivity].
  intros s1 E. rewrite <- E in H.
  destruct (xchg_busy _ _ H) as (s2 & E2 & H2).
  exists s2. rewrite (bind_Ok _ _ _ _ _ E2). decide_true.
  split; [reflexivity | congruence].
Qed.

Lemma LIST_POP_LOCKED_spin s lh off fuel :
  heap s !! (lh, fld_n) = Some LLIST_BUSY ->
  exists s', LIST_POP_LOCKED fuel lh off s = Spin s' /\ heap s' = heap s.
Proof.
  intros H. unfold LIST_POP_LOCKED.
  apply (while1_spin _ (fun s' => heap s' = heap s)); [ | reflexivity].
  intros s1 E. rewrite <- E in H.
  destruct (xchg_busy _ _ H) as (s2 & E2 & H2).
  exists s2. rewrite (bind_Ok _ _ _ _ _ E2). decide_true.
  split; [reflexivity | congruence].
Qed.

Lemma LIST_DEL_LOCKED_spin s el fuel :
  heap s !! (el, fld_n) = Some LLIST_BUSY ->
  exists s', LIST_DEL_LOCKED fuel el s = Spin s' /\ heap s' = heap s.
Proof.
  intros H. unfold LIST_DEL_LOCKED.
  apply (while1_spin _ (fun s' => heap s' = heap s)); [ | reflexivity].
  intros s1 E. rewrite <- E in H.
  destruct (xchg_busy _ _ H) as (s2 & E2 & H2).
  exists s2. rewrite (bind_Ok _ _ _ _ _ E2). decide_true.
  split; [reflexivity | congruence].
Qed.

(** On a head that still has its [ILH] value, [LIST_ADDQ_LOCKED] does not
    spin: it takes [(struct list * )2] out of [lh->p] and dereferences it. *)
Lemma LIST_ADDQ_LOCKED_ILH_fault s lh el fuel :
  holds (heap s) lh ILH -> heap s !! (2, fld_n) = None ->
  LIST_ADDQ_LOCKED (S fuel) lh el s = Fault.
Proof.
  intros [_ Hp] H2. simpl in Hp. unfold LIST_ADDQ_LOCKED. simpl.
  erewrite (bind_Ok (_HA_ATOMIC_XCHG _ _)); [ | apply xchg_Ok; exact Hp].
  destruct (decide (2 = LLIST_BUSY)) as [E|_]; [discriminate E | ].
  unfold bind, _HA_ATOMIC_XCHG. cbn [heap].
  rewrite lookup_insert_ne by congruence. rewrite H2. reflexivity.
Qed.

(** ** Properties of the locked macros *)

(** C7. On an initialised empty head, [LIST_POP_LOCKED] run alone returns
    [NULL] in its first iteration and leaves the memory as it found it: it
    takes [lh->n] in exchange for the busy marker, sees the head itself, and
    stores the head back into [lh->n] before the barrier and the [break]. *)
Theorem C7_pop_locked_empty s lh off fuel :
  detached (heap s) lh -> lh <> LLIST_BUSY -> (1 <= fuel)%nat ->
  exists s',
    LIST_POP_LOCKED fuel lh off s = Ok NULL s' /\
    heap s' = heap s /\
    detached (heap s') lh /\
    trace s' = trace s ++ [EvXchg (lh, fld_n) lh LLIST_BUSY;
                           EvStore (lh, fld_n) lh; EvBarrier].
Proof.
  intros [Hn Hp] Hb Hf. destruct fuel as [|fuel]; [lia | ].
  assert (<[(lh, fld_n) := lh]> (<[(lh, fld_n) := LLIST_BUSY]> (heap s)) = heap s) as Hh.
  { rewrite insert_insert_eq. apply insert_id. exact Hn. }
  eexists. split.
  - unfold LIST_POP_LOCKED. apply while1_break.
    step. decide_false. decide_true. step. step.
    unfold break, ret. rewrite <- !app_assoc. reflexivity.
  - cbn [heap trace]. rewrite Hh. repeat split; assumption.
Qed.

Lemma C7_pop_locked_empty_witness :
  exists s',
    LIST_POP_LOCKED 1 16 0 (final (LIST_INIT 16) st3) = Ok NULL s' /\
    heap s' = heap (final (LIST_INIT 16) st3) /\
    detached (heap s') 16 /\
    trace s' = trace (final (LIST_INIT 16) st3) ++
               [EvXchg (16, fld_n) 16 LLIST_BUSY; EvStore (16, fld_n) 16; EvBarrier].
Proof.
  apply C7_pop_locked_empty.
  - split; vm_compute; reflexivity.
  - discriminate.
  - lia.
Defined.

(** C8. For a node [el] of a well-formed list ([rest] are the other nodes
    of its ring, the list head among them; [rest] is empty when [el] is alone),
    [LIST_DEL_LOCKED(el)] run alone succeeds in its first iteration: it claims
    [el->n] and [el->p], then the predecessor's [n] when [el->p != el], then
    the successor's [p] when [el->n != el]; with these slots claimed it
    stores the predecessor into the successor's [p] and the successor into
    the predecessor's [n], and after a barrier sets [el->p] and [el->n] to
    [el].  The neighbours are linked to each other, [el] is detached, and no
    other slot changes. *)
Theorem C8_del_locked s el rest fuel :
  ring (heap s) el rest ->
  (forall x, x ∈ el :: rest -> x <> LLIST_BUSY) ->
  (1 <= fuel)%nat ->
  exists s' pred succ,
    heap s !! (el, fld_n) = Some succ /\ heap s !! (el, fld_p) = Some pred /\
    (pred = el <-> rest = []) /\ (succ = el <-> rest = []) /\
    LIST_DEL_LOCKED fuel el s = Ok tt s' /\
    trace s' =
      trace s ++
      [EvXchg (el, fld_n) succ LLIST_BUSY; EvXchg (el, fld_p) pred LLIST_BUSY] ++
      (if decide (pred <> el) then [EvXchg (pred, fld_n) el LLIST_BUSY] else []) ++
      (if decide (succ <> el) then [EvXchg (succ, fld_p) el LLIST_BUSY] else []) ++
      [EvStore (succ, fld_p) pred; EvStore (pred, fld_n) succ; EvBarrier;
       EvStore (el, fld_p) el; EvStore (el, fld_n) el; EvBarrier] /\
    detached (heap s') el /\
    (pred <> el -> heap s' !! (pred, fld_n) = Some succ) /\
    (succ <> el -> heap s' !! (succ, fld_p) = Some pred) /\
    (forall sl, sl <> (pred, fld_n) -> sl <> (succ, fld_p) ->
                sl <> (el, fld_n) -> sl <> (el, fld_p) ->
                heap s' !! sl = heap s !! sl).
Proof.
  intros Hr Hbusy Hf. destruct fuel as [|fuel]; [lia | ].
  assert (el ∈ el :: rest) as Hel by set_solver.
  destruct (ring_consistent _ _ _ _ Hr Hel) as [(succ & Hn & Hsp) (pred & Hp & Hpn)].
  assert (el <> LLIST_BUSY) as Hbe by (apply Hbusy; assumption).
  exists (final (LIST_DEL_LOCKED (S fuel) el) s), pred, succ.
  split; [exact Hn | ]. split; [exact Hp | ].
  destruct (ring_neighbours _ _ _ _ _ Hr Hn Hp)
    as [(-> & -> & ->) | (Hs & Hq & Hne1 & Hne2)].
  - split; [tauto | ]. split; [tauto | ].
    assert (LIST_DEL_LOCKED (S fuel) el s =
            Ok tt {| heap := <[(el, fld_n) := el]> (<[(el, fld_p) := el]>
                       (<[(el, fld_n) := el]> (<[(el, fld_p) := el]>
                       (<[(el, fld_p) := LLIST_BUSY]>
                       (<[(el, fld_n) := LLIST_BUSY]> (heap s))))));
                     trace := trace s ++
                       [EvXchg (el, fld_n) el LLIST_BUSY; EvXchg (el, fld_p) el LLIST_BUSY;
                        EvStore (el, fld_p) el; EvStore (el, fld_n) el; EvBarrier;
                        EvStore (el, fld_p) el; EvStore (el, fld_n) el; EvBarrier] |}) as E.
    { unfold LIST_DEL_LOCKED. apply while1_break.
      step. decide_false. step. decide_false.
      unfold del_locked_claim_prev. destruct (decide (el <> el)) as [?|_]; [congruence | ].
      rewrite bind_ret.
      unfold del_locked_claim_next. destruct (decide (el <> el)) as [?|_]; [congruence | ].
      rewrite bind_ret.
      do 6 step. unfold break, ret. rewrite <- !app_assoc. reflexivity. }
    unfold final. rewrite E. cbn [heap trace].
    split; [reflexivity | ].
    destruct (decide (el <> el)) as [?|_]; [congruence | ].
    split; [reflexivity | ].
    split; [split; look | ].
    split; [congruence | ]. split; [congruence | ].
    intros sl _ _ H1 H2. rewrite !lookup_insert_ne by congruence. reflexivity.
  - assert (pred <> LLIST_BUSY) as Hbp by (apply Hbusy; set_solver).
    assert (succ <> LLIST_BUSY) as Hbs by (apply Hbusy; set_solver).
    assert (rest <> []) as Hrest by (intros ->; set_solver).
    split; [tauto | ]. split; [tauto | ].
    assert (LIST_DEL_LOCKED (S fuel) el s =
            Ok tt {| heap := <[(el, fld_n) := el]> (<[(el, fld_p) := el]>
                       (<[(pred, fld_n) := succ]> (<[(succ, fld_p) := pred]>
                       (<[(succ, fld_p) := LLIST_BUSY]> (<[(pred, fld_n) := LLIST_BUSY]>
                       (<[(el, fld_p) := LLIST_BUSY]>
                       (<[(el, fld_n) := LLIST_BUSY]> (heap s))))))));
                     trace := trace s ++
                       [EvXchg (el, fld_n) succ LLIST_BUSY; EvXchg (el, fld_p) pred LLIST_BUSY;
                        EvXchg (pred, fld_n) el LLIST_BUSY; EvXchg (succ, fld_p) el LLIST_BUSY;
                        EvStore (succ, fld_p) pred; EvStore (pred, fld_n) succ; EvBarrier;
                        EvStore (el, fld_p) el; EvStore (el, fld_n) el; EvBarrier] |}) as E.
    { unfold LIST_DEL_LOCKED. apply while1_break.
      step. decide_false. step. decide_false.
      unfold del_locked_claim_prev. destruct (decide (pred <> el)) as [_|?]; [ | contradiction].
      rewrite bind_assoc. step. decide_false. rewrite bind_ret.
      unfold del_locked_claim_next. destruct (decide (succ <> el)) as [_|?]; [ | contradiction].
      rewrite bind_assoc. step. decide_false. rewrite bind_ret.
      do 6 step. unfold break, ret. rewrite <- !app_assoc. reflexivity. }
    unfold final. rewrite E. cbn [heap trace].
    destruct (decide (pred <> el)) as [_|?]; [ | contradiction].
    destruct (decide (succ <> el)) as [_|?]; [ | contradiction].
    split; [reflexivity | ]. split; [reflexivity | ].
    split; [split; look | ].
    split; [intros _; look | ]. split; [intros _; look | ].
    intros sl H1 H2 H3 H4. rewrite !lookup_insert_ne by congruence. reflexivity.
Qed.

Lemma C8_del_locked_witness :
  exists s' pred succ,
    heap (final (LIST_INIT 16 ;;; LIST_ADD 16 32) st3) !! (32, fld_n) = Some succ /\
    heap (final (LIST_INIT 16 ;;; LIST_ADD 16 32) st3) !! (32, fld_p) = Some pred /\
    (pred = 32 <-> [16] = []) /\ (succ = 32 <-> [16] = []) /\
    LIST_DEL_LOCKED 1 32 (final (LIST_INIT 16 ;;; LIST_ADD 16 32) st3) = Ok tt s' /\
    trace s' =
      trace (final (LIST_INIT 16 ;;; LIST_ADD 16 32) st3) ++
      [EvXchg (32, fld_n) succ LLIST_BUSY; EvXchg (32, fld_p) pred LLIST_BUSY] ++
      (if decide (pred <> 32) then [EvXchg (pred, fld_n) 32 LLIST_BUSY] else []) ++
      (if decide (succ <> 32) then [EvXchg (succ, fld_p) 32 LLIST_BUSY] else []) ++
      [EvStore (succ, fld_p) pred; EvStore (pred, fld_n) succ; EvBarrier;
       EvStore (32, fld_p) 32; EvStore (32, fld_n) 32; EvBarrier] /\
    detached (heap s') 32 /\
    (pred <> 32 -> heap s' !! (pred, fld_n) = Some succ) /\
    (succ <> 32 -> heap s' !! (succ, fld_p) = Some pred) /\
    (forall sl, sl <> (pred, fld_n) -> sl <> (succ, fld_p) ->
                sl <> (32, fld_n) -> sl <> (32, fld_p) ->
                heap s' !! sl =
                heap (final (LIST_INIT 16 ;;; LIST_ADD 16 32) st3) !! sl).
Proof.
  apply (C8_del_locked _ 32 [16] 1).
  - split.
    + compute_done.
    + repeat split; vm_compute; reflexivity.
  - intros x Hx. assert (x = 32 \/ x = 16) as [-> | ->] by set_solver; discriminate.
  - lia.
Defined.

(** C10. The busy marker [LLIST_BUSY] is the pointer value 1, and [ILH]
    puts that same value 1 in the [n] field.  So a head that still has its
    [ILH] value holds the busy marker in its [n] slot, and a locked macro
    that starts by claiming that slot ([LIST_ADD_LOCKED] and
    [LIST_POP_LOCKED] on the head, [LIST_DEL_LOCKED] of the head) reads the
    marker back at every iteration and is still spinning, with the memory
    unchanged, when any amount of fuel is exhausted. *)
Theorem C10_ILH_is_busy s lh :
  holds (heap s) lh ILH ->
  LLIST_BUSY = 1 /\ n ILH = LLIST_BUSY /\
  heap s !! (lh, fld_n) = Some LLIST_BUSY /\
  (forall fuel el,
     exists s', LIST_ADD_LOCKED fuel lh el s = Spin s' /\ heap s' = heap s) /\
  (forall fuel off,
     exists s', LIST_POP_LOCKED fuel lh off s = Spin s' /\ heap s' = heap s) /\
  (forall fuel,
     exists s', LIST_DEL_LOCKED fuel lh s = Spin s' /\ heap s' = heap s).
Proof.
  intros [Hn _]. simpl in Hn.
  split; [reflexivity | ]. split; [reflexivity | ]. split; [exact Hn | ].
  split; [ | split].
  - intros fuel el. apply LIST_ADD_LOCKED_spin. exact Hn.
  - intros fuel off. apply LIST_POP_LOCKED_spin. exact Hn.
  - intros fuel. apply LIST_DEL_LOCKED_spin. exact Hn.
Qed.

Lemma C10_ILH_is_busy_witness :
  LLIST_BUSY = 1 /\ n ILH = LLIST_BUSY /\
  heap st_ilh !! (16, fld_n) = Some LLIST_BUSY /\
  (forall fuel el,
     exists s', LIST_ADD_LOCKED fuel 16 el st_ilh = Spin s' /\ heap s' = heap st_ilh) /\
  (forall fuel off,
     exists s', LIST_POP_LOCKED fuel 16 off st_ilh = Spin s' /\ heap s' = heap st_ilh) /\
  (forall fuel,
     exists s', LIST_DEL_LOCKED fuel 16 st_ilh = Spin s' /\ heap s' = heap st_ilh).
Proof.
  apply C10_ILH_is_busy.
  split; vm_compute; reflexivity.
Defined.

(** On the head at 16 that has its [ILH] value, one of the locked macros,
    [LIST_ADDQ_LOCKED], does not spin: its first iteration faults. *)
Lemma C10_ADDQ_LOCKED_does_not_spin :
  holds (heap st_ilh) 16 ILH /\
  LIST_ADDQ_LOCKED 1 16 32 st_ilh = Fault /\
  ~ (exists s', LIST_ADDQ_LOCKED 1 16 32 st_ilh = Spin s').
Proof.
  assert (LIST_ADDQ_LOCKED 1 16 32 st_ilh = Fault) as E by (vm_compute; reflexivity).
  split; [split; vm_compute; reflexivity | ]. split; [exact E | ].
  intros [s' H]. rewrite E in H. discriminate.
Qed.

Example LIST_ADDQ_LOCKED_ILH_example :
  LIST_ADDQ_LOCKED 5 16 32 st_ilh = Fault.
Proof. vm_compute. reflexivity. Qed.

Example LIST_ADD_LOCKED_ILH_example :
  exists s', LIST_ADD_LOCKED 5 16 32 st_ilh = Spin s' /\ heap s' = mem_ilh.
Proof. eexists. split; vm_compute; reflexivity. Qed.

(** ** Two threads in the locked macros *)

Lemma while1_ext {A} (b1 b2 : M (option A)) :
  (forall s, b1 s = b2 s) -> forall fuel s, while1 fuel b1 s = while1 fuel b2 s.
Proof.
  intros Hb. induction fuel as [|fuel IH]; intros s; simpl; [reflexivity | ].
  rewrite Hb. destruct (b2 s) as [[a|] s1 | | s1]; auto.
Qed.

Lemma bind_cong {A B} (c : M A) (k1 k2 : A -> M B) s :
  (forall a s', k1 a s' = k2 a s') -> bind c k1 s = bind c k2 s.
Proof. intros H. unfold bind. destruct (c s); auto. Qed.

(** Both sides run the same statements; they differ in how the binds are
    nested. *)
Ltac same_statements :=
  repeat (repeat (progress (rewrite ?bind_assoc, ?bind_ret; cbv beta iota));
          first [ reflexivity
                | apply bind_cong; intros ? ?
                | match goal with
                  | |- context [decide ?P] => destruct (decide P)
                  | |- context [match ?c with _ => _ end] => is_var c; destruct c
                  end ]).

(** The two pieces of [LIST_ADD_LOCKED] make up the macro. *)
Lemma LIST_ADD_LOCKED_cut fuel lh el s :
  LIST_ADD_LOCKED fuel lh el s =
  while1 fuel (c <- add_locked_until_el_n lh el ;;
               match c with
               | None => continue
               | Some (n, p) => add_locked_from_el_p el n p
               end) s.
Proof.
  unfold LIST_ADD_LOCKED. apply while1_ext. clear s. intros s.
  unfold add_locked_until_el_n, add_locked_from_el_p, continue.
  same_statements.
Qed.

(** The pieces of [LIST_DEL_LOCKED] make up the macro. *)
Lemma LIST_DEL_LOCKED_cut fuel el s :
  LIST_DEL_LOCKED fuel el s =
  while1 fuel (c <- del_locked_claims el ;;
               match c with
               | None => continue
               | Some (n, p) => del_locked_stores el n p
               end) s.
Proof.
  unfold LIST_DEL_LOCKED. apply while1_ext. clear s. intros s.
  unfold del_locked_claims, del_locked_claim_own, del_locked_claim_neighbours,
    del_locked_stores, continue.
  same_statements.
Qed.

(** A node that is its own successor and is not the head keeps
    [list_for_each_entry_from] on it for ever. *)
Lemma for_each_self_loop_spins off lh x fuel :
  x <> lh ->
  forall acc s, heap s !! (x, fld_n) = Some x ->
  exists s', list_for_each_entry_from fuel off lh visit (LIST_ELEM x off) acc s = Spin s'.
Proof.
  intros Hx. induction fuel as [|fuel IH]; intros acc s Hn.
  - exists s. reflexivity.
  - rewrite (for_each_visit_step _ _ _ _ x _ _ Hx Hn). apply IH. exact Hn.
Qed.

(** C9. A locked insertion can be seen half written.  On the list at 16
    with the node 32,
    with 48 detached, thread 1 runs [LIST_ADD_LOCKED(16, 48)] and thread 2
    runs [LIST_DEL_LOCKED(48)].  The exchanges of thread 2 on [48->n] and
    [48->p] return (48, 48) before the insertion and (32, 16) after it; when
    thread 1 is preempted after [(el)->n = n;] they return (32, 48), a node
    with one pointer of the insertion written and the other not.  And when
    thread 2 is preempted after its exchanges and thread 1 runs to its end,
    both calls return and leave [16->n == 48], [48->n == 48] and
    [48->p == 48]: the head is in no well-formed list any more and
    [list_for_each_entry] from it never ends. *)
Theorem C9_insertion_seen_half_written :
  ring (heap st_race) 16 [32] /\ detached (heap st_race) 48 /\
  (exists s', del_locked_claim_own 48 st_race = Ok (Some (48, 48)) s') /\
  (exists s', (LIST_ADD_LOCKED 1 16 48 ;;; del_locked_claim_own 48) st_race =
              Ok (Some (32, 16)) s') /\
  (exists s', schedule_half_written st_race = Ok (Some (32, 48)) s') /\
  (exists s',
     schedule_both_return st_race = Ok (Some tt) s' /\
     heap s' !! (16, fld_n) = Some 48 /\
     heap s' !! (48, fld_n) = Some 48 /\
     heap s' !! (48, fld_p) = Some 48 /\
     (~ exists l, ring (heap s') 16 l) /\
     (forall fuel, exists s'', list_for_each_entry fuel 0 16 visit [] s' = Spin s'')).
Proof.
  split; [split; [compute_done | repeat split; vm_compute; reflexivity] | ].
  split; [split; vm_compute; reflexivity | ].
  split; [eexists; vm_compute; reflexivity | ].
  split; [eexists; vm_compute; reflexivity | ].
  split; [eexists; vm_compute; reflexivity | ].
  exists (final schedule_both_return st_race).
  assert (heap (final schedule_both_return st_race) !! (16, fld_n) = Some 48) as H16
    by (vm_compute; reflexivity).
  assert (heap (final schedule_both_return st_race) !! (48, fld_n) = Some 48) as H48
    by (vm_compute; reflexivity).
  assert (heap (final schedule_both_return st_race) !! (48, fld_p) = Some 48) as H48p
    by (vm_compute; reflexivity).
  split; [vm_compute; reflexivity | ].
  split; [exact H16 | ]. split; [exact H48 | ]. split; [exact H48p | ]. split.
  - intros [l Hr]. assert (16 ∈ 16 :: l) as Hin by set_solver.
    destruct (ring_consistent _ _ _ _ Hr Hin) as [(nx & Hn & Hnp) _].
    rewrite H16 in Hn. injection Hn as <-. rewrite H48p in Hnp. discriminate.
  - intros fuel. unfold list_for_each_entry.
    erewrite (bind_Ok (load _)); [ | apply load_Ok; exact H16].
    apply for_each_self_loop_spins; [discriminate | exact H48].
Qed.

(** ** Examples *)

(** The head at 16 with 32 then 48 behind it, taken apart again. *)
Example unlocked_run :
  exists s',
    (LIST_INIT 16 ;;; LIST_ADDQ 16 32 ;;; LIST_ADDQ 16 48 ;;;
     l1 <- list_for_each_entry 4 0 16 visit [] ;;
     LIST_DEL_INIT 32 ;;;
     l2 <- list_for_each_entry 4 0 16 visit [] ;;
     b <- LIST_ADDED 32 ;;
     ret (l1, l2, b)) st3 = Ok ([32; 48], [48], false) s'.
Proof. eexists. vm_compute. reflexivity. Qed.

(** [LIST_DEL_LOCKED] of a node that is alone claims its two slots only. *)
Example del_locked_alone :
  trace (final (LIST_DEL_LOCKED 1 32) st3) =
  [EvXchg (32, fld_n) 32 LLIST_BUSY; EvXchg (32, fld_p) 32 LLIST_BUSY;
   EvStore (32, fld_p) 32; EvStore (32, fld_n) 32; EvBarrier;
   EvStore (32, fld_p) 32; EvStore (32, fld_n) 32; EvBarrier] /\
  heap (final (LIST_DEL_LOCKED 1 32) st3) = mem3.
Proof. split; vm_compute; reflexivity. Qed.

(** [LIST_POP_LOCKED] on a list of two takes the first node out. *)
Example pop_locked_run :
  exists s',
    (LIST_INIT 16 ;;; LIST_ADD_LOCKED 1 16 48 ;;; LIST_ADD_LOCKED 1 16 32 ;;;
     r <- LIST_POP_LOCKED 1 16 0 ;;
     l <- list_for_each_entry 4 0 16 visit [] ;;
     ret (r, l)) st3 = Ok (32, [48]) s' /\
    detached (heap s') 32.
Proof. eexists. split; [vm_compute; reflexivity | split; vm_compute; reflexivity]. Qed.

(** Adding a node that is already in the list is outside the use the
    unlocked macros are made for: the node ends up as its own successor. *)
Example LIST_ADD_twice :
  let s := final (LIST_INIT 16 ;;; LIST_ADD 16 32 ;;; LIST_ADD 16 32) st3 in
  heap s !! (32, fld_n) = Some 32 /\ heap s !! (32, fld_p) = Some 16 /\
  ~ consistent (heap s) 32.
Proof.
  split; [vm_compute; reflexivity | ]. split; [vm_compute; reflexivity | ].
  intros [(nx & H1 & H2) _]. vm_compute in H1. injection H1 as <-.
  vm_compute in H2. discriminate.
Qed.

(** * Further properties of the macros *)

(** ** Helper lemmas *)

Lemma ring_succ_of h lh l1 x l2 :
  ring h lh (l1 ++ x :: l2) -> h !! (x, fld_n) = Some (List.hd lh l2).
Proof.
  intros [_ Hc]. apply chain_app in Hc as [_ Hc].
  destruct l2; simpl in *; unfold link in *; tauto.
Qed.

Lemma ring_head_p h lh l : ring h lh l -> h !! (lh, fld_p) = Some (List.last l lh).
Proof.
  intros [_ Hc]. destruct l as [|c l' _] using rev_ind.
  - simpl in *. unfold link in Hc. tauto.
  - apply chain_snoc in Hc as [_ [_ Hc]]. rewrite List.last_last. exact Hc.
Qed.

Lemma LIST_DEL_INIT_ring s lh l1 el l2 :
  ring (heap s) lh (l1 ++ el :: l2) ->
  exists s', LIST_DEL_INIT el s = Ok el s' /\ ring (heap s') lh (l1 ++ l2) /\
             detached (heap s') el /\
             (forall x, allocated (heap s) x -> allocated (heap s') x).
Proof.
  intros Hr. assert (el ∈ l1 ++ el :: l2) as Hin by set_solver.
  destruct (ring_member_neighbours _ _ _ _ Hr Hin)
    as (pred & succ & Hn & Hp & Hpn & Hsp & Hne1 & Hne2).
  eexists. split; [apply LIST_DEL_INIT_spec; eauto | ]. cbn [heap].
  split; [eapply ring_del_init; eassumption | ].
  split; [split; look | ].
  intros x Hx. repeat apply allocated_insert. assumption.
Qed.

Ltac heap_eq :=
  apply map_eq; intros [? ?]; rewrite !lookup_insert;
  repeat case_decide; simplify_eq;
  first [congruence | symmetry; assumption | assumption | reflexivity].

(** ** The unlocked macros on any well-formed list *)

(** X1. On a well-formed list with content [l], [LIST_ADD(lh, el)] of a node
    that is not in the list returns [el] and makes the content [el :: l]:
    the new node is the one after the head ([lh->n == el]), the order of the
    other nodes is kept, and the length grows by one. *)
Theorem X1_LIST_ADD_prepends s lh l el :
  ring (heap s) lh l -> allocated (heap s) el -> el ∉ lh :: l ->
  exists s',
    LIST_ADD lh el s = Ok el s' /\
    ring (heap s') lh (el :: l) /\
    heap s' !! (lh, fld_n) = Some el /\
    heap s' !! (el, fld_p) = Some lh.
Proof.
  intros Hr Ha Hel.
  destruct (LIST_ADD_ring _ _ _ _ Hr Ha Hel) as (s' & E & Hr' & _).
  exists s'. split; [exact E | ]. split; [exact Hr' | ].
  destruct Hr' as [_ [[H1 H2] _]]. auto.
Qed.

Lemma X1_LIST_ADD_prepends_witness :
  exists s',
    LIST_ADD 16 48 (final (LIST_INIT 16 ;;; LIST_ADD 16 32) st3) = Ok 48 s' /\
    ring (heap s') 16 [48; 32] /\
    heap s' !! (16, fld_n) = Some 48 /\
    heap s' !! (48, fld_p) = Some 16.
Proof.
  apply (X1_LIST_ADD_prepends _ 16 [32] 48).
  - split; [compute_done | repeat split; vm_compute; reflexivity].
  - split; vm_compute; eauto.
  - compute_done.
Defined.

(** X2. On a well-formed list with content [l], [LIST_ADDQ(lh, el)] of a
    node that is not in the list returns [el] and makes the content
    [l ++ [el]]: the new node is the one before the head ([lh->p == el]) and
    the order of the other nodes is kept. *)
Theorem X2_LIST_ADDQ_appends s lh l el :
  ring (heap s) lh l -> allocated (heap s) el -> el ∉ lh :: l ->
  exists s',
    LIST_ADDQ lh el s = Ok el s' /\
    ring (heap s') lh (l ++ [el]) /\
    heap s' !! (lh, fld_p) = Some el /\
    heap s' !! (el, fld_n) = Some lh.
Proof.
  intros Hr Ha Hel.
  destruct (LIST_ADDQ_ring _ _ _ _ Hr Ha Hel) as (s' & E & Hr' & _).
  exists s'. split; [exact E | ]. split; [exact Hr' | ].
  pose proof (ring_head_p _ _ _ Hr') as Hp. rewrite List.last_last in Hp.
  split; [exact Hp | ].
  destruct Hr' as [_ Hc]. apply chain_snoc in Hc as [_ [Hc _]]. exact Hc.
Qed.

Lemma X2_LIST_ADDQ_appends_witness :
  exists s',
    LIST_ADDQ 16 48 (final (LIST_INIT 16 ;;; LIST_ADD 16 32) st3) = Ok 48 s' /\
    ring (heap s') 16 ([32] ++ [48]) /\
    heap s' !! (16, fld_p) = Some 48 /\
    heap s' !! (48, fld_n) = Some 16.
Proof.
  apply (X2_LIST_ADDQ_appends _ 16 [32] 48).
  - split; [compute_done | repeat split; vm_compute; reflexivity].
  - split; vm_compute; eauto.
  - compute_done.
Defined.

(** X3. On a well-formed list, [LIST_DEL_INIT(el)] of a member takes
    exactly [el] out: the other nodes stay in the list in their order, [el]
    is detached, and [LIST_ADDED(el)], which was true while [el] was in the
    list, is false afterwards. *)
Theorem X3_LIST_DEL_INIT_removes s lh l1 el l2 :
  ring (heap s) lh (l1 ++ el :: l2) ->
  exists s',
    LIST_DEL_INIT el s = Ok el s' /\
    ring (heap s') lh (l1 ++ l2) /\
    detached (heap s') el /\
    LIST_ADDED el s = Ok true s /\
    LIST_ADDED el s' = Ok false s'.
Proof.
  intros Hr. assert (el ∈ l1 ++ el :: l2) as Hin by set_solver.
  destruct (ring_member_neighbours _ _ _ _ Hr Hin)
    as (pred & succ & Hn & Hp & Hpn & Hsp & Hne1 & Hne2).
  destruct (LIST_DEL_INIT_ring _ _ _ _ _ Hr) as (s' & E & Hr' & Hd & _).
  exists s'. split; [exact E | ]. split; [exact Hr' | ]. split; [exact Hd | ].
  rewrite !LIST_ADDED_eq. destruct Hd as [Hd _]. rewrite Hn, Hd.
  rewrite bool_decide_eq_true_2 by assumption.
  rewrite bool_decide_eq_false_2 by auto. split; reflexivity.
Qed.

Lemma X3_LIST_DEL_INIT_removes_witness :
  exists s',
    LIST_DEL_INIT 32 (final (LIST_INIT 16 ;;; LIST_ADD 16 32 ;;; LIST_ADD 16 48) st3)
      = Ok 32 s' /\
    ring (heap s') 16 ([48] ++ []) /\
    detached (heap s') 32 /\
    LIST_ADDED 32 (final (LIST_INIT 16 ;;; LIST_ADD 16 32 ;;; LIST_ADD 16 48) st3)
      = Ok true (final (LIST_INIT 16 ;;; LIST_ADD 16 32 ;;; LIST_ADD 16 48) st3) /\
    LIST_ADDED 32 s' = Ok false s'.
Proof.
  apply (X3_LIST_DEL_INIT_removes _ 16 [48] 32 []).
  split; [compute_done | repeat split; vm_compute; reflexivity].
Defined.

(** X4. On a well-formed list with content [l], [list_for_each_entry]
    visits the hosts of the nodes of [l], each once and in the order of the
    list, and stops when it is back at the head; it needs one test of the loop
    condition more than the list has nodes, and it leaves the memory as it
    is. *)
Theorem X4_for_each_entry_visits_content s lh l off fuel :
  ring (heap s) lh l -> (length l < fuel)%nat ->
  list_for_each_entry fuel off lh visit [] s =
  Ok (map (fun x => LIST_ELEM x off) l) s.
Proof. apply list_for_each_entry_ring. Qed.

Lemma X4_for_each_entry_visits_content_witness :
  list_for_each_entry 3 8 16 visit []
    (final (LIST_INIT 16 ;;; LIST_ADD 16 32 ;;; LIST_ADD 16 48) st3) =
  Ok (map (fun x => LIST_ELEM x 8) [48; 32])
    (final (LIST_INIT 16 ;;; LIST_ADD 16 32 ;;; LIST_ADD 16 48) st3).
Proof.
  apply X4_for_each_entry_visits_content.
  - split; [compute_done | repeat split; vm_compute; reflexivity].
  - simpl. lia.
Defined.

(** X5. On a well-formed list, [LIST_ISEMPTY(lh)] is true exactly when the
    list has no node. *)
Theorem X5_LIST_ISEMPTY_iff_no_node s lh l :
  ring (heap s) lh l ->
  exists b, LIST_ISEMPTY lh s = Ok b s /\ (b = true <-> l = []).
Proof.
  intros Hr. pose proof (ring_head_n _ _ _ Hr) as Hn.
  exists (bool_decide (List.hd lh l = lh)). split.
  - unfold LIST_ISEMPTY. erewrite (bind_Ok (load _)); [ | apply load_Ok; exact Hn].
    reflexivity.
  - rewrite bool_decide_eq_true. destruct l as [|a l]; simpl; [tauto | ].
    destruct Hr as [Hnd _]. apply NoDup_cons in Hnd as [Hnd _].
    split; [intros ->; set_solver | discriminate].
Qed.

Lemma X5_LIST_ISEMPTY_iff_no_node_witness :
  exists b, LIST_ISEMPTY 16 (final (LIST_INIT 16 ;;; LIST_ADD 16 32) st3) =
            Ok b (final (LIST_INIT 16 ;;; LIST_ADD 16 32) st3) /\
            (b = true <-> [32] = []).
Proof.
  apply X5_LIST_ISEMPTY_iff_no_node.
  split; [compute_done | repeat split; vm_compute; reflexivity].
Defined.

(** X6. On any well-formed list, adding a detached node with [LIST_ADD]
    or [LIST_ADDQ] and taking it out again with [LIST_DEL_INIT] gives back
    the memory as it was before the two calls. *)
Theorem X6_add_del_init_restores s lh l el :
  ring (heap s) lh l -> detached (heap s) el -> el ∉ lh :: l ->
  (exists s', (LIST_ADD lh el ;;; LIST_DEL_INIT el) s = Ok el s' /\
              heap s' = heap s) /\
  (exists s', (LIST_ADDQ lh el ;;; LIST_DEL_INIT el) s = Ok el s' /\
              heap s' = heap s).
Proof.
  intros Hr [Hen Hep] Hel. assert (lh ∈ lh :: l) as Hlh by set_solver.
  assert (el <> lh) as Hne by set_solver.
  destruct (ring_consistent _ _ _ _ Hr Hlh) as [(nx & Hn & Hnp) (px & Hp & Hpn)].
  assert (nx <> el /\ px <> el) as [Hnx Hpx].
  { destruct (ring_neighbours _ _ _ _ _ Hr Hn Hp) as [(_ & -> & ->) | (H1 & H2 & _)];
      split; first [assumption | congruence | intros ->; set_solver]. }
  split.
  - eexists. split.
    + erewrite (bind_Ok (LIST_ADD lh el));
        [ | apply LIST_ADD_spec; [eassumption | eauto | split; eauto] ].
      apply LIST_DEL_INIT_spec; cbn [heap].
      * look.
      * look.
      * repeat apply alloc_insert; eauto.
      * repeat apply alloc_insert; eauto.
    + cbn [heap]. heap_eq.
  - eexists. split.
    + erewrite (bind_Ok (LIST_ADDQ lh el));
        [ | apply LIST_ADDQ_spec; [eassumption | eauto | split; eauto] ].
      apply LIST_DEL_INIT_spec; cbn [heap].
      * look.
      * look.
      * repeat apply alloc_insert; eauto.
      * repeat apply alloc_insert; eauto.
    + cbn [heap]. heap_eq.
Qed.

Lemma X6_add_del_init_restores_witness :
  (exists s', (LIST_ADD 16 48 ;;; LIST_DEL_INIT 48)
                (final (LIST_INIT 16 ;;; LIST_ADD 16 32) st3) = Ok 48 s' /\
              heap s' = heap (final (LIST_INIT 16 ;;; LIST_ADD 16 32) st3)) /\
  (exists s', (LIST_ADDQ 16 48 ;;; LIST_DEL_INIT 48)
                (final (LIST_INIT 16 ;;; LIST_ADD 16 32) st3) = Ok 48 s' /\
              heap s' = heap (final (LIST_INIT 16 ;;; LIST_ADD 16 32) st3)).
Proof.
  apply (X6_add_del_init_restores _ 16 [32] 48).
  - split; [compute_done | repeat split; vm_compute; reflexivity].
  - split; vm_compute; reflexivity.
  - compute_done.
Defined.

(** X7. In a well-formed list, [LIST_NEXT] and [LIST_PREV] are inverse to
    each other: from the member of any node of the ring (the head included),
    the host after it has this node's host before it, and the host before it
    has this node's host after it. *)
Theorem X7_LIST_NEXT_LIST_PREV_inverse s lh l x off :
  ring (heap s) lh l -> x ∈ lh :: l ->
  (v <- LIST_NEXT x off ;; LIST_PREV (member_of v off) off) s =
    Ok (LIST_ELEM x off) s /\
  (v <- LIST_PREV x off ;; LIST_NEXT (member_of v off) off) s =
    Ok (LIST_ELEM x off) s.
Proof.
  intros Hr Hx.
  destruct (ring_consistent _ _ _ _ Hr Hx) as [(nx & Hn & Hnp) (px & Hp & Hpn)].
  split.
  - unfold LIST_NEXT, LIST_PREV. rewrite bind_assoc.
    erewrite (bind_Ok (load _)); [ | apply load_Ok; exact Hn]. rewrite bind_ret.
    rewrite member_of_LIST_ELEM.
    erewrite (bind_Ok (load _)); [ | apply load_Ok; exact Hnp]. reflexivity.
  - unfold LIST_NEXT, LIST_PREV. rewrite bind_assoc.
    erewrite (bind_Ok (load _)); [ | apply load_Ok; exact Hp]. rewrite bind_ret.
    rewrite member_of_LIST_ELEM.
    erewrite (bind_Ok (load _)); [ | apply load_Ok; exact Hpn]. reflexivity.
Qed.

Lemma X7_LIST_NEXT_LIST_PREV_inverse_witness :
  (v <- LIST_NEXT 32 8 ;; LIST_PREV (member_of v 8) 8)
     (final (LIST_INIT 16 ;;; LIST_ADD 16 32 ;;; LIST_ADD 16 48) st3) =
    Ok (LIST_ELEM 32 8) (final (LIST_INIT 16 ;;; LIST_ADD 16 32 ;;; LIST_ADD 16 48) st3) /\
  (v <- LIST_PREV 32 8 ;; LIST_NEXT (member_of v 8) 8)
     (final (LIST_INIT 16 ;;; LIST_ADD 16 32 ;;; LIST_ADD 16 48) st3) =
    Ok (LIST_ELEM 32 8) (final (LIST_INIT 16 ;;; LIST_ADD 16 32 ;;; LIST_ADD 16 48) st3).
Proof.
  apply (X7_LIST_NEXT_LIST_PREV_inverse _ 16 [48; 32] 32 8).
  - split; [compute_done | repeat split; vm_compute; reflexivity].
  - set_solver.
Defined.

(** X8. [list_for_each_entry_from], started at a node of a well-formed
    list, visits that node and the nodes after it up to the end of the
    list, in order, and none of the nodes before it; started at the head
    itself it visits nothing. *)
Theorem X8_for_each_entry_from_suffix s lh l1 x l2 off fuel acc :
  ring (heap s) lh (l1 ++ x :: l2) -> (length l2 + 1 < fuel)%nat ->
  list_for_each_entry_from fuel off lh visit (LIST_ELEM x off) acc s =
    Ok (acc ++ map (fun y => LIST_ELEM y off) (x :: l2)) s /\
  list_for_each_entry_from fuel off lh visit (LIST_ELEM lh off) acc s = Ok acc s.
Proof.
  intros Hr Hf. destruct fuel as [|fuel]; [lia | ].
  split; [ | apply for_each_visit_stop].
  pose proof (ring_succ_of _ _ _ _ _ Hr) as Hn.
  destruct Hr as [Hnd Hc]. apply chain_app in Hc as [_ Hc].
  apply NoDup_cons in Hnd as [Hlh _].
  assert (x <> lh) as Hx by (intros ->; set_solver).
  rewrite (for_each_visit_step _ _ _ _ _ _ _ Hx Hn).
  erewrite for_each_chain; [ | exact Hc | set_solver | lia | exact Hn].
  simpl. rewrite <- app_assoc. reflexivity.
Qed.

Lemma X8_for_each_entry_from_suffix_witness :
  list_for_each_entry_from 3 8 16 visit (LIST_ELEM 32 8) []
     (final (LIST_INIT 16 ;;; LIST_ADD 16 32 ;;; LIST_ADD 16 48) st3) =
    Ok ([] ++ map (fun y => LIST_ELEM y 8) (32 :: []))
       (final (LIST_INIT 16 ;;; LIST_ADD 16 32 ;;; LIST_ADD 16 48) st3) /\
  list_for_each_entry_from 3 8 16 visit (LIST_ELEM 16 8) []
     (final (LIST_INIT 16 ;;; LIST_ADD 16 32 ;;; LIST_ADD 16 48) st3) =
    Ok [] (final (LIST_INIT 16 ;;; LIST_ADD 16 32 ;;; LIST_ADD 16 48) st3).
Proof.
  apply (X8_for_each_entry_from_suffix _ 16 [48] 32 [] 8 3 []).
  - split; [compute_done | repeat split; vm_compute; reflexivity].
  - simpl. lia.
Defined.

(** ** Iteration while the list is changed *)

Section RemoveWhileIterating.

Variables (f : ptr -> bool) (off : Z) (lh : ptr).

(** One run of the body on the current node [cur]. *)
Lemma visit_remove_if_ring s kept cur rest acc :
  ring (heap s) lh (kept ++ cur :: rest) ->
  exists s',
    visit_remove_if f off (LIST_ELEM cur off) acc s =
      Ok (acc ++ [LIST_ELEM cur off]) s' /\
    ring (heap s') lh ((kept ++ kept_nodes f off [cur]) ++ rest).
Proof.
  intros Hr. unfold visit_remove_if, kept_nodes. simpl.
  destruct (f (LIST_ELEM cur off)); simpl.
  - rewrite member_of_LIST_ELEM.
    destruct (LIST_DEL_INIT_ring _ _ _ _ _ Hr) as (s' & E & Hr' & _).
    exists s'. rewrite bind_assoc, (bind_Ok _ _ _ _ _ E), app_nil_r.
    split; [reflexivity | exact Hr'].
  - exists s. rewrite <- app_assoc. split; [reflexivity | exact Hr].
Qed.

Lemma safe_loop_removes rest :
  forall kept cur acc s fuel,
    ring (heap s) lh (kept ++ cur :: rest) ->
    (length rest + 1 < fuel)%nat ->
    exists s',
      list_for_each_entry_safe_loop fuel off lh (visit_remove_if f off)
        (LIST_ELEM cur off) (LIST_ELEM (List.hd lh rest) off) acc s =
        Ok (acc ++ map (fun y => LIST_ELEM y off) (cur :: rest)) s' /\
      ring (heap s') lh (kept ++ kept_nodes f off (cur :: rest)).
Proof.
  induction rest as [|c rest IH]; intros kept cur acc s fuel Hr Hf.
  - destruct fuel as [|[|fuel]]; [simpl in Hf; lia | simpl in Hf; lia | ].
    assert (cur <> lh) as Hcur.
    { destruct Hr as [Hnd _]. apply NoDup_cons in Hnd as [Hnd _].
      intros ->. set_solver. }
    destruct (visit_remove_if_ring s kept cur [] acc Hr) as (s1 & E1 & Hr1).
    exists s1. rewrite app_nil_r in Hr1. split; [ | exact Hr1].
    cbn [list_for_each_entry_safe_loop List.hd].
    rewrite !member_of_LIST_ELEM.
    destruct (decide (cur = lh)) as [|_]; [contradiction | ].
    rewrite (bind_Ok _ _ _ _ _ E1).
    erewrite (bind_Ok (load _)); [ | apply load_Ok; eapply ring_head_n; exact Hr1].
    rewrite member_of_LIST_ELEM.
    destruct (decide (lh = lh)) as [_|]; [reflexivity | contradiction].
  - destruct fuel as [|fuel]; [simpl in Hf; lia | ].
    assert (cur <> lh) as Hcur.
    { destruct Hr as [Hnd _]. apply NoDup_cons in Hnd as [Hnd _].
      intros ->. set_solver. }
    destruct (visit_remove_if_ring s kept cur (c :: rest) acc Hr) as (s1 & E1 & Hr1).
    destruct (IH (kept ++ kept_nodes f off [cur]) c (acc ++ [LIST_ELEM cur off]) s1 fuel Hr1)
      as (s' & E & Hr'); [simpl in Hf; lia | ].
    exists s'. split.
    + cbn [list_for_each_entry_safe_loop List.hd].
      rewrite !member_of_LIST_ELEM.
      destruct (decide (cur = lh)) as [|_]; [contradiction | ].
      rewrite (bind_Ok _ _ _ _ _ E1).
      erewrite (bind_Ok (load _)); [ | apply load_Ok; eapply ring_succ_of; exact Hr1].
      rewrite E. rewrite <- app_assoc. reflexivity.
    + rewrite <- app_assoc in Hr'.
      replace (kept_nodes f off (cur :: c :: rest))
        with (kept_nodes f off [cur] ++ kept_nodes f off (c :: rest)); [exact Hr' | ].
      unfold kept_nodes. rewrite <- List.filter_app. reflexivity.
Qed.

(** After [LIST_DEL_INIT] the node is its own successor, so a loop that
    takes its next item from the current one stays on it. *)
Lemma unsafe_loop_spins c fuel :
  c <> lh -> f (LIST_ELEM c off) = true ->
  forall acc s,
    detached (heap s) c ->
    exists s',
      list_for_each_entry_from fuel off lh (visit_remove_if f off)
        (LIST_ELEM c off) acc s = Spin s'.
Proof.
  intros Hc Hf. induction fuel as [|fuel IH]; intros acc s [Hn Hp].
  - exists s. reflexivity.
  - cbn [list_for_each_entry_from]. rewrite member_of_LIST_ELEM.
    destruct (decide (c = lh)) as [|_]; [contradiction | ].
    unfold visit_remove_if. rewrite Hf, member_of_LIST_ELEM.
    rewrite !bind_assoc.
    erewrite (bind_Ok (LIST_DEL_INIT c)); [ | apply LIST_DEL_INIT_spec; eauto].
    rewrite !bind_ret. unfold visit at 1. rewrite bind_ret.
    erewrite (bind_Ok (load _)); [ | apply load_Ok; cbn [heap]; look].
    apply IH. cbn [heap]. split; look.
Qed.

End RemoveWhileIterating.

(** X9. [list_for_each_entry_safe] may take the current item out of the
    list: with a body that removes the current node with [LIST_DEL_INIT]
    whenever [f item] holds, the loop over a well-formed list visits every
    item once, in the order of the list, and leaves a well-formed list with
    the nodes that were not removed, in their order. *)
Theorem X9_for_each_entry_safe_removal s lh l f off fuel :
  ring (heap s) lh l -> (length l < fuel)%nat ->
  exists s',
    list_for_each_entry_safe fuel off lh (visit_remove_if f off) [] s =
      Ok (map (fun y => LIST_ELEM y off) l) s' /\
    ring (heap s') lh (kept_nodes f off l).
Proof.
  intros Hr Hf. pose proof (ring_head_n _ _ _ Hr) as Hn.
  unfold list_for_each_entry_safe, list_for_each_entry_safe_from.
  erewrite (bind_Ok (load _)); [ | apply load_Ok; exact Hn].
  rewrite member_of_LIST_ELEM.
  destruct l as [|c rest]; simpl in Hn |- *.
  - erewrite (bind_Ok (load _)); [ | apply load_Ok; exact Hn].
    destruct fuel as [|fuel]; [simpl in Hf; lia | ].
    exists s. split; [ | exact Hr].
    cbn [list_for_each_entry_safe_loop]. rewrite member_of_LIST_ELEM.
    destruct (decide (lh = lh)) as [_|]; [reflexivity | contradiction].
  - erewrite (bind_Ok (load _));
      [ | apply load_Ok; apply (ring_succ_of _ lh [] c rest); exact Hr].
    destruct (safe_loop_removes f off lh rest [] c [] s fuel Hr) as (s' & E & Hr');
      [simpl in Hf; lia | ].
    exists s'. split; [exact E | exact Hr'].
Qed.

Lemma X9_for_each_entry_safe_removal_witness :
  exists s',
    list_for_each_entry_safe 3 0 16 (visit_remove_if (fun item => item =? 48) 0) []
      (final (LIST_INIT 16 ;;; LIST_ADD 16 32 ;;; LIST_ADD 16 48) st3) =
      Ok (map (fun y => LIST_ELEM y 0) [48; 32]) s' /\
    ring (heap s') 16 (kept_nodes (fun item => item =? 48) 0 [48; 32]).
Proof.
  apply X9_for_each_entry_safe_removal.
  - split; [compute_done | repeat split; vm_compute; reflexivity].
  - simpl. lia.
Defined.

(** X10. [list_for_each_entry] must not be used like this: when its body
    takes the first node out of a well-formed list with [LIST_DEL_INIT],
    the removed node is its own successor, the loop never comes back to the
    head, and it is still running when any amount of fuel is exhausted. *)
Theorem X10_for_each_entry_removal_spins s lh c rest f off fuel :
  ring (heap s) lh (c :: rest) -> f (LIST_ELEM c off) = true ->
  exists s',
    list_for_each_entry fuel off lh (visit_remove_if f off) [] s = Spin s'.
Proof.
  intros Hr Hf. pose proof (ring_head_n _ _ _ Hr) as Hn. simpl in Hn.
  assert (c <> lh) as Hc.
  { destruct Hr as [Hnd _]. apply NoDup_cons in Hnd as [Hnd _].
    intros ->. set_solver. }
  unfold list_for_each_entry.
  erewrite (bind_Ok (load _)); [ | apply load_Ok; exact Hn].
  destruct fuel as [|fuel]; [exists s; reflexivity | ].
  cbn [list_for_each_entry_from]. rewrite member_of_LIST_ELEM.
  destruct (decide (c = lh)) as [|_]; [contradiction | ].
  destruct (LIST_DEL_INIT_ring s lh [] c rest Hr) as (s1 & E & _ & Hd & _).
  unfold visit_remove_if. rewrite Hf, member_of_LIST_ELEM.
  rewrite !bind_assoc, (bind_Ok _ _ _ _ _ E).
  rewrite !bind_ret. unfold visit at 1. rewrite bind_ret.
  erewrite (bind_Ok (load _)); [ | apply load_Ok; apply Hd].
  apply unsafe_loop_spins; assumption.
Qed.

Lemma X10_for_each_entry_removal_spins_witness :
  exists s',
    list_for_each_entry 7 0 16 (visit_remove_if (fun item => item =? 48) 0) []
      (final (LIST_INIT 16 ;;; LIST_ADD 16 32 ;;; LIST_ADD 16 48) st3) = Spin s'.
Proof.
  apply (X10_for_each_entry_removal_spins _ 16 48 [32]).
  - split; [compute_done | repeat split; vm_compute; reflexivity].
  - reflexivity.
Defined.

(** ** The locked macros run alone on a well-formed list *)

(** What [LIST_DEL_LOCKED] does in its first iteration to a node that has
    neighbours. *)
Lemma LIST_DEL_LOCKED_linked s el pred succ fuel :
  heap s !! (el, fld_n) = Some succ -> heap s !! (el, fld_p) = Some pred ->
  heap s !! (pred, fld_n) = Some el -> heap s !! (succ, fld_p) = Some el ->
  pred <> el -> succ <> el ->
  el <> LLIST_BUSY -> pred <> LLIST_BUSY -> succ <> LLIST_BUSY ->
  exists t,
    LIST_DEL_LOCKED (S fuel) el s =
    Ok tt {| heap := <[(el, fld_n) := el]> (<[(el, fld_p) := el]>
                 (<[(pred, fld_n) := succ]> (<[(succ, fld_p) := pred]>
                 (<[(succ, fld_p) := LLIST_BUSY]> (<[(pred, fld_n) := LLIST_BUSY]>
                 (<[(el, fld_p) := LLIST_BUSY]>
                 (<[(el, fld_n) := LLIST_BUSY]> (heap s))))))));
             trace := t |}.
Proof.
  intros Hn Hp Hpn Hsp Hne1 Hne2 Hbe Hbp Hbs. eexists.
  unfold LIST_DEL_LOCKED. apply while1_break.
  step. decide_false. step. decide_false.
  unfold del_locked_claim_prev. destruct (decide (pred <> el)) as [_|?]; [ | contradiction].
  rewrite bind_assoc. step. decide_false. rewrite bind_ret.
  unfold del_locked_claim_next. destruct (decide (succ <> el)) as [_|?]; [ | contradiction].
  rewrite bind_assoc. step. decide_false. rewrite bind_ret.
  do 6 step. reflexivity.
Qed.

Lemma LIST_ADD_LOCKED_run s lh l el fuel :
  ring (heap s) lh l -> (forall x, x ∈ lh :: l -> x <> LLIST_BUSY) ->
  allocated (heap s) el -> el ∉ lh :: l -> (1 <= fuel)%nat ->
  exists s' s1,
    LIST_ADD_LOCKED fuel lh el s = Ok tt s' /\
    LIST_ADD lh el s = Ok el s1 /\
    heap s' = heap s1 /\
    ring (heap s') lh (el :: l).
Proof.
  intros Hr Hbusy [Hen Hep] Hel Hf. destruct fuel as [|fuel]; [lia | ].
  assert (lh ∈ lh :: l) as Hlh by set_solver.
  destruct (ring_consistent _ _ _ _ Hr Hlh) as [(nx & Hn & Hnp) _].
  assert (nx ∈ lh :: l) as Hnx.
  { eapply ring_reach_closed; [exact Hr | exact Hlh | ].
    eapply reach_next; [apply reach_refl | exact Hn]. }
  assert (nx <> LLIST_BUSY) as Hb1 by (apply Hbusy; assumption).
  assert (lh <> LLIST_BUSY) as Hb2 by (apply Hbusy; assumption).
  assert (el <> lh) as Hne1 by (intros ->; contradiction).
  assert (el <> nx) as Hne2 by (intros ->; contradiction).
  assert (heap
            {| heap := <[(lh, fld_n) := el]> (<[(nx, fld_p) := el]>
                 (<[(el, fld_p) := lh]> (<[(el, fld_n) := nx]>
                 (<[(nx, fld_p) := LLIST_BUSY]>
                 (<[(lh, fld_n) := LLIST_BUSY]> (heap s))))));
               trace := [] |} =
          <[(el, fld_p) := lh]> (<[(nx, fld_p) := el]>
            (<[(lh, fld_n) := el]> (<[(el, fld_n) := nx]> (heap s))))) as Hh
    by (cbn [heap]; heap_eq).
  cbn [heap] in Hh.
  eexists _, _. split; [ | split; [apply LIST_ADD_spec; [exact Hn | eauto | split; assumption] | ] ].
  - unfold LIST_ADD_LOCKED. apply while1_break.
    step. decide_false. step. decide_false.
    do 7 step. reflexivity.
  - cbn [heap]. rewrite Hh. split; [reflexivity | ].
    apply ring_add; assumption.
Qed.

(** X11. Run alone on a well-formed list none of whose nodes has the
    address of the busy marker, [LIST_ADD_LOCKED(lh, el)] succeeds in its
    first iteration and leaves exactly the memory that [LIST_ADD(lh, el)]
    leaves: the content of the list is [el :: l]. *)
Theorem X11_LIST_ADD_LOCKED_alone s lh l el fuel :
  ring (heap s) lh l -> (forall x, x ∈ lh :: l -> x <> LLIST_BUSY) ->
  allocated (heap s) el -> el ∉ lh :: l -> (1 <= fuel)%nat ->
  exists s' s1,
    LIST_ADD_LOCKED fuel lh el s = Ok tt s' /\
    LIST_ADD lh el s = Ok el s1 /\
    heap s' = heap s1 /\
    ring (heap s') lh (el :: l).
Proof. apply LIST_ADD_LOCKED_run. Qed.

Lemma X11_LIST_ADD_LOCKED_alone_witness :
  exists s' s1,
    LIST_ADD_LOCKED 1 16 48 (final (LIST_INIT 16 ;;; LIST_ADD 16 32) st3) = Ok tt s' /\
    LIST_ADD 16 48 (final (LIST_INIT 16 ;;; LIST_ADD 16 32) st3) = Ok 48 s1 /\
    heap s' = heap s1 /\
    ring (heap s') 16 [48; 32].
Proof.
  apply (X11_LIST_ADD_LOCKED_alone _ 16 [32] 48 1).
  - split; [compute_done | repeat split; vm_compute; reflexivity].
  - intros x Hx. assert (x = 16 \/ x = 32) as [-> | ->] by set_solver; discriminate.
  - split; vm_compute; eauto.
  - compute_done.
  - lia.
Defined.

Lemma LIST_ADDQ_LOCKED_run s lh l el fuel :
  ring (heap s) lh l -> (forall x, x ∈ lh :: l -> x <> LLIST_BUSY) ->
  allocated (heap s) el -> el ∉ lh :: l -> (1 <= fuel)%nat ->
  exists s' s1,
    LIST_ADDQ_LOCKED fuel lh el s = Ok tt s' /\
    LIST_ADDQ lh el s = Ok el s1 /\
    heap s' = heap s1 /\
    ring (heap s') lh (l ++ [el]).
Proof.
  intros Hr Hbusy [Hen Hep] Hel Hf. destruct fuel as [|fuel]; [lia | ].
  assert (lh ∈ lh :: l) as Hlh by set_solver.
  destruct (ring_consistent _ _ _ _ Hr Hlh) as [_ (px & Hp & Hpn)].
  assert (px ∈ lh :: l) as Hpx.
  { destruct (ring_consistent _ _ _ _ Hr Hlh) as [(nx & Hn & _) _].
    destruct (ring_neighbours _ _ _ _ _ Hr Hn Hp) as [(_ & _ & ->) | (_ & H & _)];
      set_solver. }
  assert (px <> LLIST_BUSY) as Hb1 by (apply Hbusy; assumption).
  assert (lh <> LLIST_BUSY) as Hb2 by (apply Hbusy; assumption).
  assert (el <> lh) as Hne1 by (intros ->; contradiction).
  assert (el <> px) as Hne2 by (intros ->; contradiction).
  assert (heap
            {| heap := <[(lh, fld_p) := el]> (<[(px, fld_n) := el]>
                 (<[(el, fld_p) := px]> (<[(el, fld_n) := lh]>
                 (<[(px, fld_n) := LLIST_BUSY]>
                 (<[(lh, fld_p) := LLIST_BUSY]> (heap s))))));
               trace := [] |} =
          <[(el, fld_n) := lh]> (<[(px, fld_n) := el]>
            (<[(lh, fld_p) := el]> (<[(el, fld_p) := px]> (heap s))))) as Hh
    by (cbn [heap]; heap_eq).
  cbn [heap] in Hh.
  eexists _, _. split; [ | split; [apply LIST_ADDQ_spec; [exact Hp | eauto | split; assumption] | ] ].
  - unfold LIST_ADDQ_LOCKED. apply while1_break.
    step. decide_false. step. decide_false.
    do 7 step. reflexivity.
  - cbn [heap]. rewrite Hh. split; [reflexivity | ].
    apply ring_addq; assumption.
Qed.

(** X12. Run alone on a well-formed list none of whose nodes has the
    address of the busy marker, [LIST_ADDQ_LOCKED(lh, el)] succeeds in its
    first iteration and leaves exactly the memory that [LIST_ADDQ(lh, el)]
    leaves: the content of the list is [l ++ [el]]. *)
Theorem X12_LIST_ADDQ_LOCKED_alone s lh l el fuel :
  ring (heap s) lh l -> (forall x, x ∈ lh :: l -> x <> LLIST_BUSY) ->
  allocated (heap s) el -> el ∉ lh :: l -> (1 <= fuel)%nat ->
  exists s' s1,
    LIST_ADDQ_LOCKED fuel lh el s = Ok tt s' /\
    LIST_ADDQ lh el s = Ok el s1 /\
    heap s' = heap s1 /\
    ring (heap s') lh (l ++ [el]).
Proof. apply LIST_ADDQ_LOCKED_run. Qed.

Lemma X12_LIST_ADDQ_LOCKED_alone_witness :
  exists s' s1,
    LIST_ADDQ_LOCKED 1 16 48 (final (LIST_INIT 16 ;;; LIST_ADD 16 32) st3) = Ok tt s' /\
    LIST_ADDQ 16 48 (final (LIST_INIT 16 ;;; LIST_ADD 16 32) st3) = Ok 48 s1 /\
    heap s' = heap s1 /\
    ring (heap s') 16 ([32] ++ [48]).
Proof.
  apply (X12_LIST_ADDQ_LOCKED_alone _ 16 [32] 48 1).
  - split; [compute_done | repeat split; vm_compute; reflexivity].
  - intros x Hx. assert (x = 16 \/ x = 32) as [-> | ->] by set_solver; discriminate.
  - split; vm_compute; eauto.
  - compute_done.
  - lia.
Defined.

Lemma LIST_POP_LOCKED_run s lh a l off fuel :
  ring (heap s) lh (a :: l) -> (forall x, x ∈ lh :: a :: l -> x <> LLIST_BUSY) ->
  (1 <= fuel)%nat ->
  exists s' s1,
    LIST_POP_LOCKED fuel lh off s = Ok (LIST_ELEM a off) s' /\
    LIST_DEL_INIT a s = Ok a s1 /\
    heap s' = heap s1 /\
    ring (heap s') lh l /\
    detached (heap s') a.
Proof.
  intros Hr Hbusy Hf. destruct fuel as [|fuel]; [lia | ].
  assert (a ∈ a :: l) as Hin by set_solver.
  destruct (ring_member_neighbours _ _ _ _ Hr Hin)
    as (pred & b & Hn & Hp & Hpn & Hsp & Hne1 & Hne2).
  pose proof (ring_head_n _ _ _ Hr) as Hhn. simpl in Hhn.
  assert (pred = lh) as -> by (destruct Hr as [_ [[_ H] _]]; congruence).
  assert (b ∈ lh :: a :: l) as Hb.
  { eapply ring_reach_closed; [exact Hr | | eapply reach_next; [apply reach_refl | exact Hn] ].
    set_solver. }
  assert (a <> LLIST_BUSY) as Hb1 by (apply Hbusy; set_solver).
  assert (lh <> LLIST_BUSY) as Hb2 by (apply Hbusy; set_solver).
  assert (b <> LLIST_BUSY) as Hb3 by (apply Hbusy; assumption).
  assert (heap
            {| heap := <[(a, fld_n) := a]> (<[(a, fld_p) := a]>
                 (<[(b, fld_p) := lh]> (<[(lh, fld_n) := b]>
                 (<[(b, fld_p) := LLIST_BUSY]> (<[(a, fld_n) := LLIST_BUSY]>
                 (<[(a, fld_p) := LLIST_BUSY]>
                 (<[(lh, fld_n) := LLIST_BUSY]> (heap s))))))));
               trace := [] |} =
          <[(a, fld_n) := a]> (<[(a, fld_p) := a]>
            (<[(lh, fld_n) := b]> (<[(b, fld_p) := lh]> (heap s))))) as Hh
    by (cbn [heap]; heap_eq).
  cbn [heap] in Hh.
  eexists _, _. split; [ | split; [apply LIST_DEL_INIT_spec; eauto | ] ].
  - unfold LIST_POP_LOCKED. apply while1_break.
    step. decide_false. decide_false.
    step. decide_false. step. decide_false. step. decide_false.
    do 6 step. reflexivity.
  - cbn [heap]. rewrite Hh. split; [reflexivity | ]. split.
    + apply (ring_del_init _ lh [] a l lh b); assumption.
    + split; look.
Qed.

(** X13. Run alone on a well-formed list with first node [a], none of
    whose nodes has the address of the busy marker, [LIST_POP_LOCKED]
    succeeds in its first iteration, returns the host of [a], and leaves
    exactly the memory that [LIST_DEL_INIT(a)] leaves: the rest of the list
    keeps its order and [a] is detached. *)
Theorem X13_LIST_POP_LOCKED_alone s lh a l off fuel :
  ring (heap s) lh (a :: l) -> (forall x, x ∈ lh :: a :: l -> x <> LLIST_BUSY) ->
  (1 <= fuel)%nat ->
  exists s' s1,
    LIST_POP_LOCKED fuel lh off s = Ok (LIST_ELEM a off) s' /\
    LIST_DEL_INIT a s = Ok a s1 /\
    heap s' = heap s1 /\
    ring (heap s') lh l /\
    detached (heap s') a.
Proof. apply LIST_POP_LOCKED_run. Qed.

Lemma X13_LIST_POP_LOCKED_alone_witness :
  exists s' s1,
    LIST_POP_LOCKED 1 16 8 (final (LIST_INIT 16 ;;; LIST_ADD 16 32 ;;; LIST_ADD 16 48) st3)
      = Ok (LIST_ELEM 48 8) s' /\
    LIST_DEL_INIT 48 (final (LIST_INIT 16 ;;; LIST_ADD 16 32 ;;; LIST_ADD 16 48) st3)
      = Ok 48 s1 /\
    heap s' = heap s1 /\
    ring (heap s') 16 [32] /\
    detached (heap s') 48.
Proof.
  apply (X13_LIST_POP_LOCKED_alone _ 16 48 [32] 8 1).
  - split; [compute_done | repeat split; vm_compute; reflexivity].
  - intros x Hx. assert (x = 16 \/ x = 48 \/ x = 32) as [-> | [-> | ->]] by set_solver;
      discriminate.
  - lia.
Defined.

(** X14. Run alone on a member [el] of a well-formed list none of whose
    nodes has the address of the busy marker, [LIST_DEL_LOCKED(el)] succeeds
    in its first iteration and leaves exactly the memory that
    [LIST_DEL_INIT(el)] leaves: the other nodes stay in the list in their
    order and [el] is detached. *)
Theorem X14_LIST_DEL_LOCKED_alone s lh l1 el l2 fuel :
  ring (heap s) lh (l1 ++ el :: l2) ->
  (forall x, x ∈ lh :: l1 ++ el :: l2 -> x <> LLIST_BUSY) ->
  (1 <= fuel)%nat ->
  exists s' s1,
    LIST_DEL_LOCKED fuel el s = Ok tt s' /\
    LIST_DEL_INIT el s = Ok el s1 /\
    heap s' = heap s1 /\
    ring (heap s') lh (l1 ++ l2) /\
    detached (heap s') el.
Proof.
  intros Hr Hbusy Hf. destruct fuel as [|fuel]; [lia | ].
  assert (el ∈ l1 ++ el :: l2) as Hin by set_solver.
  destruct (ring_member_neighbours _ _ _ _ Hr Hin)
    as (pred & succ & Hn & Hp & Hpn & Hsp & Hne1 & Hne2).
  assert (el ∈ lh :: l1 ++ el :: l2) as Hin' by set_solver.
  assert (succ ∈ lh :: l1 ++ el :: l2) as Hs.
  { eapply ring_reach_closed; [exact Hr | exact Hin' | ].
    eapply reach_next; [apply reach_refl | exact Hn]. }
  assert (pred ∈ lh :: l1 ++ el :: l2) as Hq.
  { pose proof (ring_rotate _ _ _ _ _ Hr) as Hr2.
    destruct (ring_neighbours _ _ _ _ _ Hr2 Hn Hp) as [(E & _) | (_ & H & _)].
    - destruct l2; discriminate.
    - set_solver. }
  assert (el <> LLIST_BUSY) as Hb1 by (apply Hbusy; assumption).
  assert (pred <> LLIST_BUSY) as Hb2 by (apply Hbusy; assumption).
  assert (succ <> LLIST_BUSY) as Hb3 by (apply Hbusy; assumption).
  destruct (LIST_DEL_LOCKED_linked s el pred succ fuel) as (t & E); try assumption.
  assert (<[(el, fld_n) := el]> (<[(el, fld_p) := el]>
            (<[(pred, fld_n) := succ]> (<[(succ, fld_p) := pred]>
            (<[(succ, fld_p) := LLIST_BUSY]> (<[(pred, fld_n) := LLIST_BUSY]>
            (<[(el, fld_p) := LLIST_BUSY]>
            (<[(el, fld_n) := LLIST_BUSY]> (heap s)))))))) =
          <[(el, fld_n) := el]> (<[(el, fld_p) := el]>
            (<[(pred, fld_n) := succ]> (<[(succ, fld_p) := pred]> (heap s))))) as Hh
    by heap_eq.
  eexists _, _. split; [exact E | ].
  split; [apply LIST_DEL_INIT_spec; eauto | ].
  cbn [heap]. rewrite Hh. split; [reflexivity | ]. split.
  - eapply ring_del_init; eassumption.
  - split; look.
Qed.

Lemma X14_LIST_DEL_LOCKED_alone_witness :
  exists s' s1,
    LIST_DEL_LOCKED 1 32 (final (LIST_INIT 16 ;;; LIST_ADD 16 32 ;;; LIST_ADD 16 48) st3)
      = Ok tt s' /\
    LIST_DEL_INIT 32 (final (LIST_INIT 16 ;;; LIST_ADD 16 32 ;;; LIST_ADD 16 48) st3)
      = Ok 32 s1 /\
    heap s' = heap s1 /\
    ring (heap s') 16 ([48] ++ []) /\
    detached (heap s') 32.
Proof.
  apply (X14_LIST_DEL_LOCKED_alone _ 16 [48] 32 [] 1).
  - split; [compute_done | repeat split; vm_compute; reflexivity].
  - intros x Hx. assert (x = 16 \/ x = 48 \/ x = 32) as [-> | [-> | ->]] by set_solver;
      discriminate.
  - lia.
Defined.

(** ** Attempts of the locked macros that do not succeed *)

Lemma while1_spin_unchanged {A} (body : M (option A))
    (P : gmap slot ptr -> Prop) :
  (forall s s', P (heap s) -> body s = Ok None s' -> heap s' = heap s) ->
  (forall s s', body s <> Spin s') ->
  forall fuel s s', P (heap s) -> while1 fuel body s = Spin s' -> heap s' = heap s.
Proof.
  intros Hc Hs. induction fuel as [|fuel IH]; intros s s' HP H; simpl in H.
  - inversion H. reflexivity.
  - destruct (body s) as [[a|] s1 | | s1] eqn:E; try discriminate.
    + pose proof (Hc _ _ HP E) as E1. rewrite <- E1. apply IH; [ | exact H].
      rewrite E1. exact HP.
    + exfalso. exact (Hs _ _ E).
Qed.

(** Case analysis of one iteration of a locked macro: every exchange, store
    and comparison is split, and the lookups in the memory written so far are
    reduced to lookups in the memory at the start of the iteration. *)
Ltac split_iteration :=
  unfold bind, _HA_ATOMIC_XCHG, store, __ha_barrier_store, continue, break, ret;
  repeat (cbn [heap trace];
          match goal with
          | |- context [decide ?P] => destruct (decide P); subst
          | |- context [match ?m !! ?k with _ => _ end] =>
              let E := fresh "E" in
              destruct (m !! k) eqn:E;
              rewrite ?lookup_insert in E; repeat case_decide; simplify_eq
          end);
  cbn [heap trace]; try discriminate.

Ltac same_heap :=
  let H := fresh in
  intros H; inversion H; subst; cbn [heap];
  apply map_eq; intros [? ?]; rewrite !lookup_insert;
  repeat case_decide; simplify_eq;
  first [congruence | symmetry; assumption | assumption | reflexivity].

(** X15. An attempt of [LIST_ADD_LOCKED] or [LIST_ADDQ_LOCKED] that finds
    a slot it needs busy puts back what it had claimed: whatever the memory,
    when the macro is still spinning at the end of its fuel, the memory is
    the one it started with. *)
Theorem X15_locked_add_spin_unchanged fuel lh el s s' :
  LIST_ADD_LOCKED fuel lh el s = Spin s' \/
  LIST_ADDQ_LOCKED fuel lh el s = Spin s' ->
  heap s' = heap s.
Proof.
  intros [H | H]; revert H.
  - unfold LIST_ADD_LOCKED.
    apply (while1_spin_unchanged _ (fun _ => True)); [ | | exact I].
    + intros s0 s1 _. split_iteration; same_heap.
    + intros s0 s1. unfold not. split_iteration.
  - unfold LIST_ADDQ_LOCKED.
    apply (while1_spin_unchanged _ (fun _ => True)); [ | | exact I].
    + intros s0 s1 _. split_iteration; same_heap.
    + intros s0 s1. unfold not. split_iteration.
Qed.

(** X16. The same holds for [LIST_POP_LOCKED]: an attempt that finds
    [lh->n], the first node's [p] or [n], or the second node's [p] busy
    restores the slots it had claimed, so a pop that is still spinning at
    the end of its fuel has left the memory as it was. *)
Theorem X16_LIST_POP_LOCKED_spin_unchanged fuel lh off s s' :
  LIST_POP_LOCKED fuel lh off s = Spin s' -> heap s' = heap s.
Proof.
  unfold LIST_POP_LOCKED.
  apply (while1_spin_unchanged _ (fun _ => True)); [ | | exact I].
  - intros s0 s1 _. split_iteration; same_heap.
  - intros s0 s1. unfold not. split_iteration.
Qed.

(** X17. The same holds for [LIST_DEL_LOCKED] in a memory where no slot
    holds [NULL]: a removal that is still spinning at the end of its fuel has
    left the memory as it was.  ([NULL] in [p2] means that the predecessor's
    [n] was not claimed, so a predecessor whose [n] is [NULL] would not get
    it back.) *)
Theorem X17_LIST_DEL_LOCKED_spin_unchanged fuel el s s' :
  map_Forall (fun _ v => v <> NULL) (heap s) ->
  LIST_DEL_LOCKED fuel el s = Spin s' -> heap s' = heap s.
Proof.
  unfold LIST_DEL_LOCKED.
  apply (while1_spin_unchanged _ (map_Forall (fun _ v => v <> NULL))).
  - intros s0 s1 HP.
    assert (forall x, heap s0 !! (x, fld_n) <> Some NULL) as HP'
      by (intros x Hx; exact (HP _ _ Hx eq_refl)).
    clear HP.
    unfold del_locked_claim_prev, del_locked_claim_next.
    split_iteration; try same_heap.
  - intros s0 s1. unfold not, del_locked_claim_prev, del_locked_claim_next.
    split_iteration.
Qed.

Lemma X15_locked_add_spin_unchanged_witness :
  heap (final (LIST_ADD_LOCKED 3 16 48) st_busy) = heap st_busy.
Proof.
  apply (X15_locked_add_spin_unchanged 3 16 48).
  left. vm_compute. reflexivity.
Defined.

Lemma X16_LIST_POP_LOCKED_spin_unchanged_witness :
  heap (final (LIST_POP_LOCKED 3 16 0) st_busy) = heap st_busy.
Proof.
  apply (X16_LIST_POP_LOCKED_spin_unchanged 3 16 0).
  vm_compute. reflexivity.
Defined.

Lemma X17_LIST_DEL_LOCKED_spin_unchanged_witness :
  heap (final (LIST_DEL_LOCKED 3 32) st_busy) = heap st_busy.
Proof.
  apply (X17_LIST_DEL_LOCKED_spin_unchanged 3 32).
  - compute_done.
  - vm_compute. reflexivity.
Defined.

(** Without the condition of X17: the predecessor 16 of 32 has [NULL] in
    its [n], the successor's [p] is busy, and the attempt leaves the marker
    in [16->n]. *)
Example LIST_DEL_LOCKED_null_not_restored :
  heap st_null !! (16, fld_n) = Some NULL /\
  exists s', LIST_DEL_LOCKED 1 32 st_null = Spin s' /\
             heap s' !! (16, fld_n) = Some LLIST_BUSY.
Proof. split; [reflexivity | ]. eexists. split; vm_compute; reflexivity. Qed.

(** ** Moving a node *)

Lemma ring_frame h h' x l :
  (forall y f, y ∈ x :: l -> h' !! (y, f) = h !! (y, f)) ->
  ring h x l -> ring h' x l.
Proof.
  intros Hf [Hnd Hc]. split; [exact Hnd | ].
  eapply chain_frame; [ | | exact Hc]; intros y Hy; apply Hf; set_solver.
Qed.

Lemma LIST_DEL_ring s lh l1 el l2 :
  ring (heap s) lh (l1 ++ el :: l2) ->
  exists s' pred succ,
    LIST_DEL el s = Ok el s' /\
    pred ∈ lh :: l1 ++ l2 /\ succ ∈ lh :: l1 ++ l2 /\
    heap s' = <[(pred, fld_n) := succ]> (<[(succ, fld_p) := pred]> (heap s)) /\
    ring (heap s') lh (l1 ++ l2).
Proof.
  intros Hr. assert (el ∈ l1 ++ el :: l2) as Hin by set_solver.
  destruct (ring_member_neighbours _ _ _ _ Hr Hin)
    as (pred & succ & Hn & Hp & Hpn & Hsp & Hne1 & Hne2).
  assert (el ∈ lh :: l1 ++ el :: l2) as Hin' by set_solver.
  assert (succ ∈ lh :: l1 ++ el :: l2) as Hs.
  { eapply ring_reach_closed; [exact Hr | exact Hin' | ].
    eapply reach_next; [apply reach_refl | exact Hn]. }
  assert (pred ∈ lh :: l1 ++ el :: l2) as Hq.
  { pose proof (ring_rotate _ _ _ _ _ Hr) as Hr2.
    destruct (ring_neighbours _ _ _ _ _ Hr2 Hn Hp) as [(E & _) | (_ & H & _)].
    - destruct l2; discriminate.
    - set_solver. }
  eexists _, pred, succ. split; [apply LIST_DEL_spec; eauto | ]. cbn [heap].
  split; [set_solver | ]. split; [set_solver | ]. split; [reflexivity | ].
  eapply ring_del; eassumption.
Qed.

(** X18. A node taken out with plain [LIST_DEL] can be added again at once:
    on a well-formed list, [LIST_DEL(el)] followed by [LIST_ADD(lh, el)]
    moves [el] to the front and [LIST_DEL(el)] followed by
    [LIST_ADDQ(lh, el)] moves it to the back; the other nodes keep their
    order.  The pointers that [LIST_DEL] leaves in [el] are overwritten. *)
Theorem X18_del_then_add_moves s lh l1 el l2 :
  ring (heap s) lh (l1 ++ el :: l2) ->
  (exists s', (LIST_DEL el ;;; LIST_ADD lh el) s = Ok el s' /\
              ring (heap s') lh (el :: l1 ++ l2)) /\
  (exists s', (LIST_DEL el ;;; LIST_ADDQ lh el) s = Ok el s' /\
              ring (heap s') lh ((l1 ++ l2) ++ [el])).
Proof.
  intros Hr.
  assert (el ∈ lh :: l1 ++ el :: l2) as Hin by set_solver.
  pose proof (ring_allocated _ _ _ _ Hr Hin) as Ha.
  assert (el ∉ lh :: l1 ++ l2) as Hel.
  { destruct Hr as [Hnd _].
    apply NoDup_cons in Hnd as [H1 Hnd]. apply NoDup_app in Hnd as (_ & H2 & H3).
    apply NoDup_cons in H3 as [H3 _]. set_solver. }
  destruct (LIST_DEL_ring _ _ _ _ _ Hr) as (s1 & pred & succ & E1 & _ & _ & Hh & Hr1).
  assert (allocated (heap s1) el) as Ha1
    by (rewrite Hh; repeat apply allocated_insert; exact Ha).
  split.
  - destruct (LIST_ADD_ring _ _ _ _ Hr1 Ha1 Hel) as (s2 & E2 & Hr2 & _).
    exists s2. rewrite (bind_Ok _ _ _ _ _ E1). split; assumption.
  - destruct (LIST_ADDQ_ring _ _ _ _ Hr1 Ha1 Hel) as (s2 & E2 & Hr2 & _).
    exists s2. rewrite (bind_Ok _ _ _ _ _ E1). split; assumption.
Qed.

Lemma X18_del_then_add_moves_witness :
  (exists s', (LIST_DEL 32 ;;; LIST_ADD 16 32)
                (final (LIST_INIT 16 ;;; LIST_ADD 16 32 ;;; LIST_ADD 16 48) st3) = Ok 32 s' /\
              ring (heap s') 16 (32 :: [48] ++ [])) /\
  (exists s', (LIST_DEL 32 ;;; LIST_ADDQ 16 32)
                (final (LIST_INIT 16 ;;; LIST_ADD 16 32 ;;; LIST_ADD 16 48) st3) = Ok 32 s' /\
              ring (heap s') 16 (([48] ++ []) ++ [32])).
Proof.
  apply (X18_del_then_add_moves _ 16 [48] 32 []).
  split; [compute_done | repeat split; vm_compute; reflexivity].
Defined.

(** X19. Two lists that share no node do not disturb each other: moving a
    node [el] from the list at [a] to the end of the list at [b] with
    [LIST_DEL(el)] and [LIST_ADDQ(b, el)] leaves the first list well formed
    without [el] and the second well formed with [el] as its last node. *)
Theorem X19_move_between_lists s a l1 el l2 b l :
  ring (heap s) a (l1 ++ el :: l2) -> ring (heap s) b l ->
  (forall y, y ∈ a :: l1 ++ el :: l2 -> y ∉ b :: l) ->
  exists s',
    (LIST_DEL el ;;; LIST_ADDQ b el) s = Ok el s' /\
    ring (heap s') a (l1 ++ l2) /\
    ring (heap s') b (l ++ [el]).
Proof.
  intros Ha Hb Hdisj.
  assert (el ∈ a :: l1 ++ el :: l2) as Hin by set_solver.
  pose proof (ring_allocated _ _ _ _ Ha Hin) as Hal.
  assert (el ∉ a :: l1 ++ l2) as Hel.
  { destruct Ha as [Hnd _].
    apply NoDup_cons in Hnd as [H1 Hnd]. apply NoDup_app in Hnd as (_ & H2 & H3).
    apply NoDup_cons in H3 as [H3 _]. set_solver. }
  destruct (LIST_DEL_ring _ _ _ _ _ Ha) as (s1 & pred & succ & E1 & Hq & Hs & Hh & Ha1).
  assert (ring (heap s1) b l) as Hb1.
  { eapply ring_frame; [ | exact Hb]. intros y f Hy. rewrite Hh.
    rewrite !lookup_insert_ne
      by (intros [= -> _]; eapply Hdisj; [ | exact Hy]; set_solver).
    reflexivity. }
  assert (allocated (heap s1) el) as Hal1
    by (rewrite Hh; repeat apply allocated_insert; exact Hal).
  assert (b ∈ b :: l) as Hbb by set_solver.
  destruct (ring_consistent _ _ _ _ Hb1 Hbb) as [(nx & Hn & _) (px & Hp & Hpn)].
  assert (px ∈ b :: l) as Hpx.
  { destruct (ring_neighbours _ _ _ _ _ Hb1 Hn Hp) as [(_ & _ & ->) | (_ & H & _)];
      set_solver. }
  assert (el ∉ b :: l) as Helb by (apply Hdisj; exact Hin).
  eexists. split; [ | split].
  - rewrite (bind_Ok _ _ _ _ _ E1).
    apply LIST_ADDQ_spec; [exact Hp | eauto | exact Hal1].
  - cbn [heap]. eapply ring_frame; [ | exact Ha1]. intros y f Hy.
    rewrite !lookup_insert_ne
      by (intros [= -> _];
          first [ contradiction
                | exfalso; apply (Hdisj y); [set_solver | assumption] ]).
    reflexivity.
  - cbn [heap]. apply ring_addq; assumption.
Qed.

Lemma X19_move_between_lists_witness :
  exists s',
    (LIST_DEL 32 ;;; LIST_ADDQ 80 32)
      (final (LIST_ADDQ 16 32 ;;; LIST_ADDQ 16 48 ;;; LIST_ADDQ 80 64) st5) = Ok 32 s' /\
    ring (heap s') 16 ([] ++ [48]) /\
    ring (heap s') 80 ([64] ++ [32]).
Proof.
  apply (X19_move_between_lists _ 16 [] 32 [48] 80 [64]).
  - split; [compute_done | repeat split; vm_compute; reflexivity].
  - split; [compute_done | repeat split; vm_compute; reflexivity].
  - intros y Hy Hy'.
    assert (y = 16 \/ y = 32 \/ y = 48) as Hc by set_solver.
    assert (y = 80 \/ y = 64) as Hd by set_solver. lia.
Defined.

(** X20. [list_for_each_entry_safe_from], started at a node [x] of a
    well-formed list with a body that removes the current node with
    [LIST_DEL_INIT] whenever [f item] holds, visits [x] and the nodes after
    it, each once and in order, and leaves the nodes before [x] and the
    visited nodes that were not removed, in their order. *)
Theorem X20_for_each_entry_safe_from_removal s lh l1 x l2 f off fuel acc :
  ring (heap s) lh (l1 ++ x :: l2) -> (length l2 + 1 < fuel)%nat ->
  exists s',
    list_for_each_entry_safe_from fuel off lh (visit_remove_if f off)
      (LIST_ELEM x off) acc s =
      Ok (acc ++ map (fun y => LIST_ELEM y off) (x :: l2)) s' /\
    ring (heap s') lh (l1 ++ kept_nodes f off (x :: l2)).
Proof.
  intros Hr Hf. unfold list_for_each_entry_safe_from.
  rewrite member_of_LIST_ELEM.
  erewrite (bind_Ok (load _)); [ | apply load_Ok; eapply ring_succ_of; exact Hr].
  apply safe_loop_removes; assumption.
Qed.

Lemma X20_for_each_entry_safe_from_removal_witness :
  exists s',
    list_for_each_entry_safe_from 3 0 16 (visit_remove_if (fun _ => true) 0)
      (LIST_ELEM 32 0) []
      (final (LIST_INIT 16 ;;; LIST_ADD 16 32 ;;; LIST_ADD 16 48) st3) =
      Ok ([] ++ map (fun y => LIST_ELEM y 0) (32 :: [])) s' /\
    ring (heap s') 16 ([48] ++ kept_nodes (fun _ => true) 0 (32 :: [])).
Proof.
  apply (X20_for_each_entry_safe_from_removal _ 16 [48] 32 []).
  - split; [compute_done | repeat split; vm_compute; reflexivity].
  - simpl. lia.
Defined.

(** ** The locked macros as a stack and as a queue *)

(** X21. Run alone on a well-formed list, [LIST_ADD_LOCKED(lh, el)]
    followed by [LIST_POP_LOCKED(lh)] gives back the host of [el], whatever
    [el->n] and [el->p] held.  The list has its content again, [el] is
    detached, and no other slot has changed: when [el] was detached the
    memory is again what it was before the two calls. *)
Theorem X21_locked_add_pop_round_trip s lh l el off fuel :
  ring (heap s) lh l -> (forall x, x ∈ el :: lh :: l -> x <> LLIST_BUSY) ->
  allocated (heap s) el -> el ∉ lh :: l -> (1 <= fuel)%nat ->
  exists s',
    (LIST_ADD_LOCKED fuel lh el ;;; LIST_POP_LOCKED fuel lh off) s =
      Ok (LIST_ELEM el off) s' /\
    ring (heap s') lh l /\
    heap s' = <[(el, fld_n) := el]> (<[(el, fld_p) := el]> (heap s)) /\
    (detached (heap s) el -> heap s' = heap s).
Proof.
  intros Hr Hbusy Ha Hel Hf.
  assert (lh ∈ lh :: l) as Hlh by set_solver.
  destruct (ring_consistent _ _ _ _ Hr Hlh) as [(nx & Hn & Hnp) _].
  destruct (LIST_ADD_LOCKED_run s lh l el fuel Hr) as (sa & s1 & Ea & E1 & Hh & Hra);
    [intros x Hx; apply Hbusy; set_solver | exact Ha | exact Hel | exact Hf | ].
  rewrite (LIST_ADD_spec _ _ _ _ Hn) in E1; [ | eauto | exact Ha].
  inversion E1; subst s1; clear E1. cbn [heap] in Hh.
  destruct (LIST_POP_LOCKED_run sa lh el l off fuel Hra)
    as (s' & s2 & Ep & E2 & Hh' & Hr' & _);
    [intros x Hx; apply Hbusy; set_solver | exact Hf | ].
  assert (el <> lh /\ el <> nx) as [Hne1 Hne2].
  { assert (nx ∈ lh :: l) as Hnx.
    { eapply ring_reach_closed; [exact Hr | exact Hlh | ].
      eapply reach_next; [apply reach_refl | exact Hn]. }
    split; intros ->; contradiction. }
  destruct Ha as [Han Hap].
  rewrite (LIST_DEL_INIT_spec sa el nx lh) in E2.
  - inversion E2; subst s2; clear E2. cbn [heap] in Hh'.
    assert (heap s' = <[(el, fld_n) := el]> (<[(el, fld_p) := el]> (heap s))) as Hfin
      by (rewrite Hh', Hh; heap_eq).
    exists s'. rewrite (bind_Ok _ _ _ _ _ Ea). split; [exact Ep | ].
    split; [exact Hr' | ]. split; [exact Hfin | ].
    intros [Hdn Hdp]. rewrite Hfin.
    rewrite (insert_id (heap s) (el, fld_p) el Hdp). apply insert_id. exact Hdn.
  - rewrite Hh. look.
  - rewrite Hh. look.
  - rewrite Hh. repeat apply alloc_insert. eauto.
  - rewrite Hh. repeat apply alloc_insert. eauto.
Qed.

Lemma X21_locked_add_pop_round_trip_witness :
  exists s',
    (LIST_ADD_LOCKED 1 16 48 ;;; LIST_POP_LOCKED 1 16 8)
      (final (LIST_INIT 16 ;;; LIST_ADD 16 32) st3) = Ok (LIST_ELEM 48 8) s' /\
    ring (heap s') 16 [32] /\
    heap s' = <[(48, fld_n) := 48]> (<[(48, fld_p) := 48]>
                (heap (final (LIST_INIT 16 ;;; LIST_ADD 16 32) st3))) /\
    heap s' = heap (final (LIST_INIT 16 ;;; LIST_ADD 16 32) st3).
Proof.
  destruct (X21_locked_add_pop_round_trip
              (final (LIST_INIT 16 ;;; LIST_ADD 16 32) st3) 16 [32] 48 8 1)
    as (s' & E & Hr & Hh & Hd).
  - split; [compute_done | repeat split; vm_compute; reflexivity].
  - intros x Hx. assert (x = 48 \/ x = 16 \/ x = 32) as [-> | [-> | ->]] by set_solver;
      discriminate.
  - split; vm_compute; eauto.
  - compute_done.
  - lia.
  - exists s'. split; [exact E | ]. split; [exact Hr | ]. split; [exact Hh | ].
    apply Hd. split; vm_compute; reflexivity.
Defined.

(** X22. With [LIST_ADDQ_LOCKED] and [LIST_POP_LOCKED] the list is a
    queue: run alone on a well-formed list, adding [el] at the end and then
    popping gives the host of the oldest node (of [el] itself when the list
    was empty) and leaves the other nodes, with [el] last, in their order. *)
Theorem X22_locked_addq_pop_is_fifo s lh l el off fuel :
  ring (heap s) lh l -> (forall x, x ∈ el :: lh :: l -> x <> LLIST_BUSY) ->
  allocated (heap s) el -> el ∉ lh :: l -> (1 <= fuel)%nat ->
  exists s',
    (LIST_ADDQ_LOCKED fuel lh el ;;; LIST_POP_LOCKED fuel lh off) s =
      Ok (LIST_ELEM (List.hd el l) off) s' /\
    ring (heap s') lh (List.tl (l ++ [el])).
Proof.
  intros Hr Hbusy Ha Hel Hf.
  destruct (LIST_ADDQ_LOCKED_run s lh l el fuel Hr) as (sa & s1 & Ea & _ & _ & Hra);
    [intros x Hx; apply Hbusy; set_solver | exact Ha | exact Hel | exact Hf | ].
  assert (l ++ [el] = List.hd el l :: List.tl (l ++ [el])) as Hl
    by (destruct l; reflexivity).
  rewrite Hl in Hra.
  destruct (LIST_POP_LOCKED_run sa lh _ _ off fuel Hra) as (s' & _ & Ep & _ & _ & Hr' & _);
    [ | exact Hf | ].
  - intros x Hx. apply Hbusy. rewrite <- Hl in Hx. set_solver.
  - exists s'. rewrite (bind_Ok _ _ _ _ _ Ea). split; [exact Ep | exact Hr'].
Qed.

Lemma X22_locked_addq_pop_is_fifo_witness :
  exists s',
    (LIST_ADDQ_LOCKED 1 16 48 ;;; LIST_POP_LOCKED 1 16 8)
      (final (LIST_INIT 16 ;;; LIST_ADD 16 32) st3) = Ok (LIST_ELEM (List.hd 48 [32]) 8) s' /\
    ring (heap s') 16 (List.tl ([32] ++ [48])).
Proof.
  apply (X22_locked_addq_pop_is_fifo _ 16 [32] 48 8 1).
  - split; [compute_done | repeat split; vm_compute; reflexivity].
  - intros x Hx. assert (x = 48 \/ x = 16 \/ x = 32) as [-> | [-> | ->]] by set_solver;
      discriminate.
  - split; vm_compute; eauto.
  - compute_done.
  - lia.
Defined.

(** X23. On a head that still has its [ILH] value, [LIST_ADDQ_LOCKED] does
    not spin like the macros that claim [lh->n]: it takes the value 2 out of
    [lh->p] and dereferences it, which faults when no [struct list] is at the
    address 2. *)
Theorem X23_LIST_ADDQ_LOCKED_ILH_faults s lh el fuel :
  holds (heap s) lh ILH -> heap s !! (p ILH, fld_n) = None -> (1 <= fuel)%nat ->
  LIST_ADDQ_LOCKED fuel lh el s = Fault.
Proof.
  intros Hh H2 Hf. destruct fuel as [|fuel]; [lia | ].
  apply LIST_ADDQ_LOCKED_ILH_fault; assumption.
Qed.

Lemma X23_LIST_ADDQ_LOCKED_ILH_faults_witness :
  LIST_ADDQ_LOCKED 4 16 32 st_ilh = Fault.
Proof.
  apply X23_LIST_ADDQ_LOCKED_ILH_faults.
  - split; vm_compute; reflexivity.
  - vm_compute. reflexivity.
  - lia.
Defined.
